(** * bcoin: chain entries, coin bundles, the coin view, the chain database
      and the mempool

    A shallow embedding of the parts of bcoin that the specification's
    testable properties talk about, with the properties stated and proved
    (or refuted at a concrete input) against the embedded code.

    Conventions of the embedding.
    - A JavaScript number holding an integer is a [Z]; a [BN] big number is
      a [Z] as well (bn.js is arbitrary precision).
    - [undefined]/[null] results are [None]; a thrown exception (an
      [assert] that fails, a read past the end of a buffer) is an error
      value of the result type of the function.
    - A [Buffer] is a [list byte].
    - Continuation-passing code is written in direct style: the callback's
      argument is the function's result. *)

From Stdlib Require Import ZArith Lia String Ascii DecimalString List Bool.
From Stdlib.Strings Require Byte.
From coqutil Require Import Byte Word.LittleEndianList.
From stdpp Require Import base option list gmap strings.

Local Open Scope Z_scope.

#[global] Instance byte_eq_dec : EqDecision byte := Byte.byte_eq_dec.

(** ** JavaScript built-ins used by the sources *)

Module JS.

(** [String(n)] for an integer-valued number (below 1e21 in magnitude JS
    prints all the digits). *)
Definition toString (n : Z) : string := NilZero.string_of_int (Z.to_int n).

(** The comparison [Array.prototype.sort] uses when it is called with no
    comparator: both elements are converted to strings and the strings are
    compared by code units. *)
Definition sortLe (a b : Z) : bool := String.leb (toString a) (toString b).

Fixpoint insert_by (le : Z -> Z -> bool) (x : Z) (l : list Z) : list Z :=
  match l with
  | [] => [x]
  | y :: l' => if le x y then x :: y :: l' else y :: insert_by le x l'
  end.

Fixpoint sort_by (le : Z -> Z -> bool) (l : list Z) : list Z :=
  match l with
  | [] => []
  | x :: l' => insert_by le x (sort_by le l')
  end.

(** [arr.sort()]: the array ordered by [sortLe].  Elements that compare
    equal are equal numbers, so the result does not depend on the sorting
    algorithm of the engine. *)
Definition sort (l : list Z) : list Z := sort_by sortLe l.

(** [arr.sort(function(a, b) { return a - b; })], the numerical order. *)
Definition sortNumeric (l : list Z) : list Z := sort_by Z.leb l.

(** The 32-bit conversions of the bitwise operators. *)
Definition toUint32 (n : Z) : Z := n mod 2 ^ 32.
Definition toInt32 (n : Z) : Z := (n + 2 ^ 31) mod 2 ^ 32 - 2 ^ 31.

(** [a >>> n], [a << n] and [a | 0]. *)
Definition ushr (a n : Z) : Z := Z.shiftr (toUint32 a) n.
Definition shl (a n : Z) : Z := toInt32 (Z.shiftl (toInt32 a) n).
Definition or0 (a : Z) : Z := toInt32 a.

End JS.

(** ** chainentry.js *)

Module ChainEntry.

(** [constants.block.MEDIAN_TIMESPAN] (constants.js is not part of the
    sources at hand; the specification gives the value 11). *)
Definition MEDIAN_TIMESPAN : nat := 11.

Record ChainEntry := {
  hash : string;
  version : Z;
  prevBlock : string;
  merkleRoot : string;
  ts : Z;
  bits : Z;
  nonce : Z;
  height : Z;
  chainwork : Z
}.

(** The header fields [fromBlock] reads off a block. *)
Record Block := {
  b_hash : string;
  b_version : Z;
  b_prevBlock : string;
  b_merkleRoot : string;
  b_ts : Z;
  b_bits : Z;
  b_nonce : Z;
  b_height : Z
}.

(** [ChainEntry.MAX_CHAINWORK = new BN(1).ushln(256)]. *)
Definition MAX_CHAINWORK : Z := Z.shiftl 1 256.

(** Modelled from the spec: [utils.fromCompact] (utils.js is not under src/).
    The specification only names it ([target = from_compact(bits)]); this is
    Bitcoin's compact target encoding: an 8-bit exponent, a sign bit and a
    23-bit mantissa.  The theorems below are stated for an arbitrary
    decoding function; this one is used where a concrete one is needed. *)
Definition compactTarget (compact : Z) : Z :=
  let exponent := Z.shiftr compact 24 in
  let negative := Z.land (Z.shiftr compact 23) 1 in
  let mantissa := Z.land compact 8388607 in
  if compact =? 0 then 0
  else
    let num :=
      if exponent <=? 3 then Z.shiftr mantissa (8 * (3 - exponent))
      else Z.shiftl mantissa (8 * (exponent - 3)) in
    if negative =? 1 then - num else num.

Section WithCompact.

Variable fromCompact : Z -> Z.

(** [ChainEntry.prototype.getProof]. *)
Definition getProof (e : ChainEntry) : Z :=
  let target := fromCompact (bits e) in
  if (target <? 0) || (target =? 0) then 0
  else MAX_CHAINWORK / (target + 1).

(** [ChainEntry.prototype.getChainwork]. *)
Definition getChainwork (e : ChainEntry) (prev : option ChainEntry) : Z :=
  let proof := getProof e in
  match prev with
  | None => proof
  | Some p => proof + chainwork p
  end.

(** [ChainEntry.prototype.fromBlock]; the assertion [block.height !== -1]
    is the [None] result. *)
Definition fromBlock (block : Block) (prev : option ChainEntry)
  : option ChainEntry :=
  if b_height block =? -1 then None
  else
    let e := {| hash := b_hash block; version := b_version block;
                prevBlock := b_prevBlock block;
                merkleRoot := b_merkleRoot block;
                ts := b_ts block; bits := b_bits block;
                nonce := b_nonce block; height := b_height block;
                chainwork := 0 |} in
    Some {| hash := hash e; version := version e; prevBlock := prevBlock e;
            merkleRoot := merkleRoot e; ts := ts e; bits := bits e;
            nonce := nonce e; height := height e;
            chainwork := getChainwork e prev |}.

(** A chain of entries: every block is turned into an entry on top of the
    entry of the block before it, as the chain does when it accepts a
    block. *)
Fixpoint fromBlocks (prev : option ChainEntry) (blocks : list Block)
  : option ChainEntry :=
  match blocks with
  | [] => prev
  | b :: rest =>
      match fromBlock b prev with
      | None => None
      | Some e => fromBlocks (Some e) rest
      end
  end.

(** The proof of work of the entry a block becomes. *)
Definition blockProof (b : Block) : Z :=
  let target := fromCompact (b_bits b) in
  if (target <? 0) || (target =? 0) then 0
  else MAX_CHAINWORK / (target + 1).

End WithCompact.

(** [ChainEntry.prototype.getMedianTime]: the loop
    [for (i = 0; i < timeSpan && entry; i++, entry = ancestors[i])].
    [n] counts the iterations that remain before [i] reaches [timeSpan]. *)
Fixpoint medianLoop (n : nat) (i : nat) (entry : option ChainEntry)
  (ancestors : list ChainEntry) (median : list Z) : list Z :=
  match n with
  | O => median
  | S n' =>
      match entry with
      | None => median
      | Some e =>
          medianLoop n' (S i) (ancestors !! S i) ancestors (median ++ [ts e])
      end
  end.

Definition getMedianTime (e : ChainEntry) (ancestors : list ChainEntry)
  : option Z :=
  let median := medianLoop MEDIAN_TIMESPAN 0 (Some e) ancestors [] in
  let median := JS.sort median in
  median !! (length median / 2)%nat.

(** The timestamps the loop collects: the entry's own, then those of
    [ancestors[1]], [ancestors[2]], ... up to [MEDIAN_TIMESPAN] in all. *)
Definition lastTimestamps (e : ChainEntry) (ancestors : list ChainEntry)
  : list Z :=
  take MEDIAN_TIMESPAN (ts e :: map ts (drop 1 ancestors)).

(** The median the specification describes: the middle element of the
    timestamps in ascending numerical order. *)
Definition numericMedian (l : list Z) : option Z :=
  JS.sortNumeric l !! (length l / 2)%nat.

Definition entryAt (t : Z) : ChainEntry :=
  {| hash := ""; version := 1; prevBlock := ""; merkleRoot := ""; ts := t;
     bits := 0; nonce := 0; height := 0; chainwork := 0 |}.

Definition blockWithBits (b : Z) (h : Z) : Block :=
  {| b_hash := ""; b_version := 1; b_prevBlock := ""; b_merkleRoot := "";
     b_ts := 0; b_bits := b; b_nonce := 0; b_height := h |}.

(** *** Properties *)

Lemma medianLoop_spec n i e ancestors acc :
  ancestors !! i = Some e \/ i = 0%nat ->
  medianLoop n i (Some e) ancestors acc
  = acc ++ take n (ts e :: map ts (drop (S i) ancestors)).
Proof.
  revert i e acc. induction n as [|n IH]; intros i e acc Hi; simpl.
  - by rewrite app_nil_r.
  - destruct (ancestors !! S i) as [e'|] eqn:Hnext.
    + rewrite IH by (left; exact Hnext).
      rewrite <- app_assoc. simpl. f_equal. f_equal.
      rewrite (drop_S ancestors e' (S i) Hnext). done.
    + rewrite drop_ge by (apply lookup_ge_None; exact Hnext).
      simpl. destruct n; simpl; by rewrite ?take_nil.
Qed.

(** The loop gathers exactly the last [MEDIAN_TIMESPAN] timestamps (fewer
    when the ancestor array is shorter). *)
Lemma getMedianTime_collects e ancestors :
  medianLoop MEDIAN_TIMESPAN 0 (Some e) ancestors [] = lastTimestamps e ancestors.
Proof.
  rewrite medianLoop_spec by (by right). reflexivity.
Qed.

Lemma getProof_eq fromCompact e :
  getProof fromCompact e
  = if fromCompact (bits e) <=? 0 then 0
    else 2 ^ 256 / (fromCompact (bits e) + 1).
Proof.
  unfold getProof, MAX_CHAINWORK. rewrite Z.shiftl_1_l.
  destruct (Z.ltb_spec (fromCompact (bits e)) 0),
    (Z.eqb_spec (fromCompact (bits e)) 0),
    (Z.leb_spec (fromCompact (bits e)) 0); simpl; try reflexivity; lia.
Qed.

Lemma getProof_bounds fromCompact e :
  0 <= getProof fromCompact e <= 2 ^ 255.
Proof.
  rewrite getProof_eq.
  destruct (Z.leb_spec (fromCompact (bits e)) 0) as [Hle|Hgt]; [lia|].
  split.
  - apply Z.div_pos; lia.
  - transitivity (2 ^ 256 / 2).
    + apply Z.div_le_compat_l; lia.
    + change (2 ^ 256) with (2 ^ 255 * 2). rewrite Z.div_mul by lia. lia.
Qed.

Lemma fromBlocks_chainwork fromCompact blocks : forall prev tip,
  fromBlocks fromCompact (Some prev) blocks = Some tip ->
  chainwork tip
  = chainwork prev + fold_right Z.add 0 (map (blockProof fromCompact) blocks).
Proof.
  induction blocks as [|b rest IH]; intros prev tip H; simpl in *.
  - inversion H. lia.
  - unfold fromBlock in H.
    destruct (b_height b =? -1); [discriminate|].
    apply IH in H. rewrite H. simpl. unfold getChainwork, getProof, blockProof.
    simpl. lia.
Qed.

Lemma fromBlocks_total fromCompact blocks : forall prev b,
  Forall (fun b => b_height b <> -1) (b :: blocks) ->
  exists tip,
    fromBlocks fromCompact prev (b :: blocks) = Some tip /\
    chainwork tip
    = from_option chainwork 0 prev
      + fold_right Z.add 0 (map (blockProof fromCompact) (b :: blocks)).
Proof.
  induction blocks as [|b' rest IH]; intros prev b Hh.
  - apply Forall_cons in Hh as [Hb _]. simpl. unfold fromBlock.
    destruct (Z.eqb_spec (b_height b) (-1)); [done|].
    eexists; split; [reflexivity|]. simpl.
    unfold getChainwork, getProof, blockProof. simpl.
    destruct prev; simpl; lia.
  - apply Forall_cons in Hh as [Hb Hrest].
    change (fromBlocks fromCompact prev (b :: b' :: rest))
      with (match fromBlock fromCompact b prev with
            | None => None
            | Some e => fromBlocks fromCompact (Some e) (b' :: rest)
            end).
    unfold fromBlock at 1.
    destruct (Z.eqb_spec (b_height b) (-1)); [done|].
    destruct (IH (fromBlock fromCompact b prev) b' Hrest) as (tip & Htip & Hw).
    unfold fromBlock in Htip, Hw.
    destruct (Z.eqb_spec (b_height b) (-1)); [done|].
    exists tip. split; [exact Htip|]. rewrite Hw. simpl.
    unfold getChainwork, getProof, blockProof. simpl.
    destruct prev; simpl; lia.
Qed.

(** C3, evaluated on the code.  An entry stamped 1000000000 whose two
    predecessors are stamped 999999999 and 999999998: [median.sort()] orders
    the numbers as strings, so "1000000000" comes first and the element in
    the middle is 999999998, while the median of the three timestamps in
    numerical order is 999999999. *)
Theorem getMedianTime_sorts_as_strings :
  let e := entryAt 1000000000 in
  let ancestors := [e; entryAt 999999999; entryAt 999999998] in
  lastTimestamps e ancestors = [1000000000; 999999999; 999999998] /\
  getMedianTime e ancestors = Some 999999998 /\
  numericMedian (lastTimestamps e ancestors) = Some 999999999.
Proof. repeat split; vm_compute; reflexivity. Qed.

(** C5, as amended.  [getProof] is [floor(2^256 / (target + 1))], and 0 for
    a target that is zero or negative, so it lies between 0 and 2^255;
    [getChainwork] is the proof alone when there is no previous entry and
    the previous chainwork plus the proof otherwise; and the chainwork of
    the tip of a chain of blocks is the plain sum of the proofs on top of
    the chainwork it started from: nothing caps it. *)
Theorem chainwork_is_sum_of_proofs fromCompact prev b blocks :
  Forall (fun b => b_height b <> -1) (b :: blocks) ->
  (forall e,
     getProof fromCompact e
     = (if fromCompact (bits e) <=? 0 then 0
        else 2 ^ 256 / (fromCompact (bits e) + 1)) /\
     0 <= getProof fromCompact e <= 2 ^ 255 /\
     getChainwork fromCompact e None = getProof fromCompact e /\
     forall p, getChainwork fromCompact e (Some p)
               = chainwork p + getProof fromCompact e) /\
  exists tip,
    fromBlocks fromCompact prev (b :: blocks) = Some tip /\
    chainwork tip
    = from_option chainwork 0 prev
      + fold_right Z.add 0 (map (blockProof fromCompact) (b :: blocks)).
Proof.
  intros Hh. split.
  - intros e. split; [apply getProof_eq|].
    split; [apply getProof_bounds|].
    split; [reflexivity|]. intros p. unfold getChainwork. lia.
  - by apply fromBlocks_total.
Qed.

Lemma chainwork_is_sum_of_proofs_witness :
  let b := blockWithBits 16842752 1 in
  Forall (fun b => b_height b <> -1) [b; b] /\
  exists tip,
    fromBlocks compactTarget None [b; b] = Some tip /\
    chainwork tip
    = 0 + fold_right Z.add 0 (map (blockProof compactTarget) [b; b]).
Proof.
  assert (H : Forall (fun b => b_height b <> -1)
                [blockWithBits 16842752 1; blockWithBits 16842752 1])
    by (repeat constructor; simpl; lia).
  split; [exact H|].
  exact (proj2 (chainwork_is_sum_of_proofs compactTarget None _ _ H)).
Defined.

(** C5 as stated fails: three entries of compact target 0x01010000 (target
    1, proof 2^255 each) have a chainwork of 3 * 2^255, above 2^256. *)
Lemma chainwork_exceeds_max :
  ~ (forall blocks tip,
       fromBlocks compactTarget None blocks = Some tip ->
       chainwork tip <= 2 ^ 256).
Proof.
  intros H.
  pose (b := blockWithBits 16842752 1).
  specialize (H [b; b; b] _ eq_refl). vm_compute in H. apply H. reflexivity.
Qed.

End ChainEntry.

(** ** Primitives shared by the coin bundles, the coin view, the chain
       database and the mempool *)

Module Primitives.

(** script.js is not part of the sources at hand: the operations of a
    [Script] that the code below calls are the fields of this interface. *)
Class ScriptAPI := {
  Script : Type;
  (** [script.isUnspendable()] *)
  isUnspendable : Script -> bool;
  (** [script.isPubkeyhash()] and [script.code[2].data] *)
  isPubkeyhash : Script -> bool;
  pubkeyhashData : Script -> list byte;
  (** [script.isScripthash()] and [script.code[1].data] *)
  isScripthash : Script -> bool;
  scripthashData : Script -> list byte;
  (** [script.toRaw()], [script.fromRaw(data)], [script.getSize()] *)
  scriptToRaw : Script -> list byte;
  scriptFromRaw : list byte -> Script;
  scriptGetSize : Script -> Z;
  (** [script.fromPubkeyhash(hash)] and [script.fromScripthash(hash)] *)
  fromPubkeyhash : list byte -> Script;
  fromScripthash : list byte -> Script
}.

Section Types.

Context `{ScriptAPI}.

Record Outpoint := { op_hash : string; op_index : nat }.

(** coin.js: one unspent output with its context. *)
Record Coin := {
  coin_version : Z;
  coin_height : Z;
  coin_value : Z;
  coin_script : Script;
  coin_coinbase : bool;
  coin_hash : string;
  coin_index : nat
}.

Record Input := {
  prevout : Outpoint;
  in_script : Script;
  in_witness : list (list byte);
  in_coin : option Coin
}.

Record Output := { out_value : Z; out_script : Script }.

Record TX := {
  tx_hash : string;
  tx_version : Z;
  tx_ts : Z;
  tx_height : Z;
  inputs : list Input;
  outputs : list Output
}.

Definition setCoin (i : Input) (c : option Coin) : Input :=
  {| prevout := prevout i; in_script := in_script i;
     in_witness := in_witness i; in_coin := c |}.

Definition setInputs (tx : TX) (ins : list Input) : TX :=
  {| tx_hash := tx_hash tx; tx_version := tx_version tx; tx_ts := tx_ts tx;
     tx_height := tx_height tx; inputs := ins; outputs := outputs tx |}.

Definition setHashIndex (c : Coin) (h : string) (i : nat) : Coin :=
  {| coin_version := coin_version c; coin_height := coin_height c;
     coin_value := coin_value c; coin_script := coin_script c;
     coin_coinbase := coin_coinbase c; coin_hash := h; coin_index := i |}.

End Types.

(** Modelled from the spec: script.js is not under src/.  A script stands for
    its serialization; the two templates the coin bundle compresses are
    Bitcoin's pay-to-pubkey-hash ([76 a9 14 <20 bytes> 88 ac]) and
    pay-to-script-hash ([a9 14 <20 bytes> 87]), and a script that starts
    with [OP_RETURN] ([6a]) is unspendable.  This instance is what the
    concrete runs below use; the general statements are over any
    [ScriptAPI]. *)
Definition rawIsPubkeyhash (s : list byte) : bool :=
  (length s =? 25)%nat
  && bool_decide (take 3 s = [Byte.x76; Byte.xa9; Byte.x14])
  && bool_decide (drop 23 s = [Byte.x88; Byte.xac]).

Definition rawIsScripthash (s : list byte) : bool :=
  (length s =? 23)%nat
  && bool_decide (take 2 s = [Byte.xa9; Byte.x14])
  && bool_decide (drop 22 s = [Byte.x87]).

Definition rawIsUnspendable (s : list byte) : bool :=
  match s with
  | Byte.x6a :: _ => true
  | _ => false
  end.

Definition rawScripts : ScriptAPI := {|
  Script := list byte;
  isUnspendable := rawIsUnspendable;
  isPubkeyhash := rawIsPubkeyhash;
  pubkeyhashData := fun s => take 20 (drop 3 s);
  isScripthash := rawIsScripthash;
  scripthashData := fun s => take 20 (drop 2 s);
  scriptToRaw := fun s => s;
  scriptFromRaw := fun s => s;
  scriptGetSize := fun s => Z.of_nat (length s);
  fromPubkeyhash := fun h => [Byte.x76; Byte.xa9; Byte.x14] ++ h ++ [Byte.x88; Byte.xac];
  fromScripthash := fun h => [Byte.xa9; Byte.x14] ++ h ++ [Byte.x87]
|}.

(** What goes wrong: a [VerifyError] or another error handed to a callback,
    or an exception that is thrown (a failed [assert], a property read off
    [undefined]). *)
Inductive Error :=
| VerifyError (type reason : string) (score : Z)
| IOError (message : string)
| Exception (message : string).

End Primitives.

(** ** mempool.js *)

Module Mempool.

Import Primitives.

(** tx.js, constants.js, the locker, the clock and the random source are
    not part of the sources at hand.  The methods of a transaction the
    mempool calls, the constants it reads and the floating-point arithmetic
    of its free-transaction limiter are the fields of this interface. *)
Class TXAPI `{ScriptAPI} := {
  (** [tx.isSane(ret)], [tx.isStandard(ret)], [tx.checkInputs(height, ret)]:
      the result and [ret.reason], [ret.score]. *)
  isSane : TX -> bool * (string * Z);
  isStandard : TX -> bool * (string * Z);
  checkInputs : TX -> Z -> bool * (string * Z);
  isCoinbase : TX -> bool;
  hasWitness : TX -> bool;
  hasCoins : TX -> bool;
  hasStandardInputs : TX -> bool;
  getSigopsCost : TX -> Z -> Z;
  getFee : TX -> Z;
  getMinFee : TX -> Z -> Z -> Z;
  tx_getSize : TX -> Z;
  getVirtualSize : TX -> Z;
  getModifiedSize : TX -> Z -> Z;
  getPriority : TX -> Z -> Z;
  getChainValue : TX -> Z -> Z;
  getPrevout : TX -> list string;
  (** [tx.verifyAsync(flags, callback)]: an error of the worker pool, or
      the verdict. *)
  verifyAsync : TX -> Z -> string + bool;
  (** [orphan.fillCoins(tx)]: the inputs of the orphan that spend [tx] get
      their coins. *)
  fillCoinsFrom : TX -> TX -> TX;
  (** [bcoin.tx.getRate(size, fee)] and [bcoin.coin.fromTX(tx, i)] *)
  getRate : Z -> Z -> Z;
  coinFromTX : TX -> nat -> Coin;
  (** [bcoin.ec.rand(min, max)] *)
  rand : Z -> Z -> nat;
  (** constants *)
  STANDARD_LOCKTIME_FLAGS : Z;
  STANDARD_VERIFY_FLAGS : Z;
  MANDATORY_VERIFY_FLAGS : Z;
  VERIFY_WITNESS : Z;
  MAX_SIGOPS_COST : Z;
  MEMPOOL_EXPIRY : Z;
  FEE_HALFLIFE : Z;
  ANCESTOR_LIMIT : Z;
  MAX_ORPHAN_TX : Z;
  FREE_THRESHOLD : Z;
  (** [ptrSize] is 8 or 4, by the platform. *)
  ptr64 : bool;
  (** [freeCount] is a floating-point number:
      [freeCount * Math.pow(1 - 1 / 600, dt)], [freeCount > limit] and
      [freeCount + size]. *)
  Float : Type;
  freeDecay : Float -> Z -> Float;
  freeAbove : Float -> Z -> bool;
  freeAdd : Float -> Z -> Float;
  (** The red-black tree [this.time] of rbt.js, through the three methods
      the mempool calls. *)
  Tree : Type;
  tree_insert : Z -> string -> Tree -> Tree;
  tree_remove : Z -> Tree -> Tree;
  tree_range : Z -> Z -> Tree -> list (Z * string)
}.

Section WithAPI.

Context `{TXAPI}.

(** The chain as the mempool sees it during one call: its height, the
    state of the deployments and, for the methods that take a callback, the
    error of the store or the result. *)
Record Chain := {
  chain_height : Z;
  hasCSV : bool;
  chainHasWitness : bool;
  checkFinal : TX -> Z -> string + bool;
  checkLocks : TX -> Z -> string + bool;
  db_hasCoins : string -> string + bool;
  db_getCoin : string -> nat -> string + option Coin
}.

Record Block := { block_hash : string; block_height : Z; txs : list TX }.

Record MempoolEntry := {
  e_tx : TX;
  e_height : Z;
  e_size : Z;
  e_priority : Z;
  e_fee : Z;
  e_ts : Z;
  e_chainValue : Z;
  e_count : Z;
  e_sizes : Z;
  e_fees : Z;
  e_dependencies : bool
}.

Definition setTX (e : MempoolEntry) (t : TX) : MempoolEntry :=
  {| e_tx := t; e_height := e_height e; e_size := e_size e;
     e_priority := e_priority e; e_fee := e_fee e; e_ts := e_ts e;
     e_chainValue := e_chainValue e; e_count := e_count e;
     e_sizes := e_sizes e; e_fees := e_fees e;
     e_dependencies := e_dependencies e |}.

(** The events the mempool emits, in the order of emission.  An event
    carries the hash of its transaction (and of its block). [conflict] is
    in the list of events of the specification. *)
Inductive Event :=
| EvTx (hash : string)
| EvAddTx (hash : string)
| EvRemoveTx (hash : string)
| EvConfirmed (hash block : string)
| EvUnconfirmed (hash block : string)
| EvConflict (hash : string)
| EvBadOrphan (hash : string)
| EvAddOrphan (hash : string)
| EvRemoveOrphan (hash : string)
| EvError (e : Error).

Record Options := {
  limitFree : bool;
  limitFreeRelay : Z;
  relayPriority : bool;
  requireStandard : bool;
  rejectAbsurdFees : bool;
  prematureWitness : bool;
  accurateMemory : bool;
  maxSize : Z
}.

(** The fields of a [Mempool] object.  [tx] and [orphans] are JavaScript
    objects read back with [Object.keys]: association lists in insertion
    order.  The keys [hash + index] of [spents] and [coins] are pairs.
    [pending] is the set of hashes the locker holds back. *)
Record Mempool := mk {
  options : Options;
  tx : list (string * MempoolEntry);
  spents : gmap (string * nat) Outpoint;
  coins : gmap (string * nat) Coin;
  orphans : list (string * TX);
  waiting : gmap string (list string);
  totalOrphans : Z;
  size : Z;
  total : Z;
  spent : Z;
  time : Tree;
  freeCount : Float;
  lastTime : Z;
  blockSinceBump : bool;
  lastFeeUpdate : Z;
  minFeeRate : Z;
  minReasonableFee : Z;
  minRelayFee : Z;
  events : list Event;
  pending : list string
}.

Definition set_tx f m := mk (options m) (f (tx m)) (spents m) (coins m) (orphans m) (waiting m) (totalOrphans m) (size m) (total m) (spent m) (time m) (freeCount m) (lastTime m) (blockSinceBump m) (lastFeeUpdate m) (minFeeRate m) (minReasonableFee m) (minRelayFee m) (events m) (pending m).
Definition set_spents f m := mk (options m) (tx m) (f (spents m)) (coins m) (orphans m) (waiting m) (totalOrphans m) (size m) (total m) (spent m) (time m) (freeCount m) (lastTime m) (blockSinceBump m) (lastFeeUpdate m) (minFeeRate m) (minReasonableFee m) (minRelayFee m) (events m) (pending m).
Definition set_coins f m := mk (options m) (tx m) (spents m) (f (coins m)) (orphans m) (waiting m) (totalOrphans m) (size m) (total m) (spent m) (time m) (freeCount m) (lastTime m) (blockSinceBump m) (lastFeeUpdate m) (minFeeRate m) (minReasonableFee m) (minRelayFee m) (events m) (pending m).
Definition set_orphans f m := mk (options m) (tx m) (spents m) (coins m) (f (orphans m)) (waiting m) (totalOrphans m) (size m) (total m) (spent m) (time m) (freeCount m) (lastTime m) (blockSinceBump m) (lastFeeUpdate m) (minFeeRate m) (minReasonableFee m) (minRelayFee m) (events m) (pending m).
Definition set_waiting f m := mk (options m) (tx m) (spents m) (coins m) (orphans m) (f (waiting m)) (totalOrphans m) (size m) (total m) (spent m) (time m) (freeCount m) (lastTime m) (blockSinceBump m) (lastFeeUpdate m) (minFeeRate m) (minReasonableFee m) (minRelayFee m) (events m) (pending m).
Definition set_totalOrphans f m := mk (options m) (tx m) (spents m) (coins m) (orphans m) (waiting m) (f (totalOrphans m)) (size m) (total m) (spent m) (time m) (freeCount m) (lastTime m) (blockSinceBump m) (lastFeeUpdate m) (minFeeRate m) (minReasonableFee m) (minRelayFee m) (events m) (pending m).
Definition set_size f m := mk (options m) (tx m) (spents m) (coins m) (orphans m) (waiting m) (totalOrphans m) (f (size m)) (total m) (spent m) (time m) (freeCount m) (lastTime m) (blockSinceBump m) (lastFeeUpdate m) (minFeeRate m) (minReasonableFee m) (minRelayFee m) (events m) (pending m).
Definition set_total f m := mk (options m) (tx m) (spents m) (coins m) (orphans m) (waiting m) (totalOrphans m) (size m) (f (total m)) (spent m) (time m) (freeCount m) (lastTime m) (blockSinceBump m) (lastFeeUpdate m) (minFeeRate m) (minReasonableFee m) (minRelayFee m) (events m) (pending m).
Definition set_spent f m := mk (options m) (tx m) (spents m) (coins m) (orphans m) (waiting m) (totalOrphans m) (size m) (total m) (f (spent m)) (time m) (freeCount m) (lastTime m) (blockSinceBump m) (lastFeeUpdate m) (minFeeRate m) (minReasonableFee m) (minRelayFee m) (events m) (pending m).
Definition set_time f m := mk (options m) (tx m) (spents m) (coins m) (orphans m) (waiting m) (totalOrphans m) (size m) (total m) (spent m) (f (time m)) (freeCount m) (lastTime m) (blockSinceBump m) (lastFeeUpdate m) (minFeeRate m) (minReasonableFee m) (minRelayFee m) (events m) (pending m).
Definition set_freeCount f m := mk (options m) (tx m) (spents m) (coins m) (orphans m) (waiting m) (totalOrphans m) (size m) (total m) (spent m) (time m) (f (freeCount m)) (lastTime m) (blockSinceBump m) (lastFeeUpdate m) (minFeeRate m) (minReasonableFee m) (minRelayFee m) (events m) (pending m).
Definition set_lastTime f m := mk (options m) (tx m) (spents m) (coins m) (orphans m) (waiting m) (totalOrphans m) (size m) (total m) (spent m) (time m) (freeCount m) (f (lastTime m)) (blockSinceBump m) (lastFeeUpdate m) (minFeeRate m) (minReasonableFee m) (minRelayFee m) (events m) (pending m).
Definition set_blockSinceBump f m := mk (options m) (tx m) (spents m) (coins m) (orphans m) (waiting m) (totalOrphans m) (size m) (total m) (spent m) (time m) (freeCount m) (lastTime m) (f (blockSinceBump m)) (lastFeeUpdate m) (minFeeRate m) (minReasonableFee m) (minRelayFee m) (events m) (pending m).
Definition set_lastFeeUpdate f m := mk (options m) (tx m) (spents m) (coins m) (orphans m) (waiting m) (totalOrphans m) (size m) (total m) (spent m) (time m) (freeCount m) (lastTime m) (blockSinceBump m) (f (lastFeeUpdate m)) (minFeeRate m) (minReasonableFee m) (minRelayFee m) (events m) (pending m).
Definition set_minFeeRate f m := mk (options m) (tx m) (spents m) (coins m) (orphans m) (waiting m) (totalOrphans m) (size m) (total m) (spent m) (time m) (freeCount m) (lastTime m) (blockSinceBump m) (lastFeeUpdate m) (f (minFeeRate m)) (minReasonableFee m) (minRelayFee m) (events m) (pending m).
Definition set_events f m := mk (options m) (tx m) (spents m) (coins m) (orphans m) (waiting m) (totalOrphans m) (size m) (total m) (spent m) (time m) (freeCount m) (lastTime m) (blockSinceBump m) (lastFeeUpdate m) (minFeeRate m) (minReasonableFee m) (minRelayFee m) (f (events m)) (pending m).

(** *** The monad of the mempool's methods

    A method runs on the mempool object and either returns, or hands an
    error to its callback (or throws), in both cases leaving the object as
    it is at that moment.  [OutOfFuel] is the bound of the embedding on
    the depth of the recursive methods, not a behaviour of the code. *)
Inductive Res (A : Type) :=
| Ret (a : A) (m : Mempool)
| Throw (e : Error) (m : Mempool)
| OutOfFuel.
Arguments Ret {A}. Arguments Throw {A}. Arguments OutOfFuel {A}.

Definition M (A : Type) : Type := Mempool -> Res A.

Definition ret {A} (a : A) : M A := fun m => Ret a m.
Definition bind {A B} (x : M A) (k : A -> M B) : M B :=
  fun m => match x m with
           | Ret a m' => k a m'
           | Throw e m' => Throw e m'
           | OutOfFuel => OutOfFuel
           end.
Definition throw {A} (e : Error) : M A := fun m => Throw e m.
Definition get : M Mempool := fun m => Ret m m.
Definition modify (f : Mempool -> Mempool) : M unit := fun m => Ret tt (f m).
Definition lift {A} (r : string + A) : M A :=
  match r with inl message => throw (IOError message) | inr a => ret a end.
Definition raise {A} (r : Error + A) : M A :=
  match r with inl e => throw e | inr a => ret a end.
Definition emit (e : Event) : M unit := modify (set_events (fun l => l ++ [e])).
Definition assert (b : bool) (message : string) : M unit :=
  if b then ret tt else throw (Exception message).

End WithAPI.

Arguments Ret {_ _ A}.
Arguments Throw {_ _ A}.
Arguments OutOfFuel {_ _ A}.

Notation "x <- c1 ;; c2" := (bind c1 (fun x => c2))
  (at level 100, c1 at next level, right associativity).
Notation "c1 ;;; c2" := (bind c1 (fun _ => c2))
  (at level 100, right associativity).


Section Methods.

Context `{TXAPI}.

(** JavaScript objects used as maps, with their keys in insertion order. *)
Fixpoint alookup {V} (k : string) (l : list (string * V)) : option V :=
  match l with
  | [] => None
  | (k', v) :: l' => if String.eqb k k' then Some v else alookup k l'
  end.

Fixpoint aset {V} (k : string) (v : V) (l : list (string * V))
  : list (string * V) :=
  match l with
  | [] => [(k, v)]
  | (k', v') :: l' =>
      if String.eqb k k' then (k', v) :: l' else (k', v') :: aset k v l'
  end.

Fixpoint adel {V} (k : string) (l : list (string * V)) : list (string * V) :=
  match l with
  | [] => []
  | (k', v') :: l' => if String.eqb k k' then l' else (k', v') :: adel k l'
  end.

(** [forEachSerial(list, iter, callback)] when [iter] always goes on to the
    next item unless it fails. *)
Fixpoint forEachSerial {A} (l : list A) (iter : A -> M unit) : M unit :=
  match l with
  | [] => ret tt
  | x :: l' => iter x ;;; forEachSerial l' iter
  end.

Definition ptrSize : Z := if ptr64 then 8 else 4.

(** [mallocUsage(alloc)]. *)
Definition mallocUsage (alloc : Z) : Z :=
  if alloc =? 0 then 0
  else if ptrSize =? 8 then JS.shl (JS.ushr (alloc + 31) 4) 4
  else JS.shl (JS.ushr (alloc + 15) 3) 3.

Definition len {A} (l : list A) : Z := Z.of_nat (length l).

Definition sumZ (l : list Z) : Z := fold_right Z.add 0 l.

(** [Mempool.prototype.memUsageAccurate]. *)
Definition memUsageAccurate (t : TX) : Z :=
  0 + (tx_getSize t + 4 + 32 + 4 + 4 + 4)
    + (2 + 64)
    + (2 + 10 + 1 + 64)
    + (len (inputs t) * (2 + 64 + 1 + 2 + 32))
    + (len (outputs t) * (2 + 64 + 1 + 2 + 80)).

(** [Mempool.prototype.memUsageBitcoind]. *)
Definition memUsageBitcoind (t : TX) : Z :=
  let mem := 0 in
  let mem := mem + mallocUsage (len (inputs t)) in
  let mem := mem + mallocUsage (len (outputs t)) in
  let mem :=
    mem + sumZ (map (fun i => mallocUsage (scriptGetSize (in_script i)))
                    (inputs t)) in
  let mem :=
    mem + sumZ (map (fun o => mallocUsage (scriptGetSize (out_script o)))
                    (outputs t)) in
  let mem := mem + mallocUsage (len (inputs t)) in
  mem + sumZ (map (fun i =>
                     mallocUsage (len (in_witness i))
                     + sumZ (map (fun item => mallocUsage (len item))
                                 (in_witness i)))
                  (inputs t)).

(** [Mempool.prototype.memUsage]. *)
Definition memUsage (m : Mempool) (t : TX) : Z :=
  if accurateMemory (options m) then memUsageAccurate t
  else memUsageBitcoind t.

(** [Mempool.prototype.getSize]. *)
Definition getSize (m : Mempool) : Z :=
  if accurateMemory (options m) then size m
  else mallocUsage (162 + 15 * ptrSize) * total m
       + mallocUsage (spent m)
       + mallocUsage (total m)
       + mallocUsage (total m)
       + size m.

(** [entry.toRaw()] keeps the transaction without the coins of its inputs:
    what [getEntry] and [getTX] give back has none. *)
Definition stripCoins (t : TX) : TX :=
  setInputs t (map (fun i => setCoin i None) (inputs t)).

(** [Mempool.prototype.getEntry] and [Mempool.prototype.getTX]. *)
Definition getEntry (m : Mempool) (hash : string) : option MempoolEntry :=
  alookup hash (tx m).

Definition getTX (m : Mempool) (hash : string) : option TX :=
  e_tx <$> alookup hash (tx m).

(** [Mempool.prototype.getCoin]. *)
Definition getCoin (m : Mempool) (hash : string) (index : nat) : option Coin :=
  match coins m !! (hash, index) with
  | None => None
  | Some coin => Some (setHashIndex coin hash index)
  end.

(** [Mempool.prototype.isSpent]: the outpoint of the spender. *)
Definition isSpent (m : Mempool) (hash : string) (index : nat)
  : option Outpoint :=
  spents m !! (hash, index).

(** [Mempool.prototype.fillHistory]. *)
Definition fillHistory (m : Mempool) (t : TX) : TX :=
  if isCoinbase t then t
  else
    setInputs t
      (map (fun input =>
              match in_coin input with
              | Some _ => input
              | None =>
                  match getTX m (op_hash (prevout input)) with
                  | None => input
                  | Some prev =>
                      setCoin input
                        (Some (coinFromTX prev (op_index (prevout input))))
                  end
              end)
           (inputs t)).

(** [Mempool.prototype.fillCoins]. *)
Definition fillCoins (m : Mempool) (t : TX) : TX :=
  if isCoinbase t then t
  else
    setInputs t
      (map (fun input =>
              match in_coin input with
              | Some _ => input
              | None =>
                  match getCoin m (op_hash (prevout input))
                          (op_index (prevout input)) with
                  | None => input
                  | Some coin => setCoin input (Some coin)
                  end
              end)
           (inputs t)).

(** [Mempool.prototype.hasTX], [hasOrphan], [getOrphan], [has]. *)
Definition hasTX (m : Mempool) (hash : string) : bool :=
  bool_decide (is_Some (alookup hash (tx m))).

Definition getOrphan (m : Mempool) (hash : string) : option TX :=
  alookup hash (orphans m).

Definition hasOrphan (m : Mempool) (hash : string) : bool :=
  bool_decide (is_Some (alookup hash (orphans m))).

Definition hasPending (m : Mempool) (hash : string) : bool :=
  bool_decide (hash ∈ pending m).

Definition has (m : Mempool) (hash : string) : bool :=
  if hasPending m hash then true
  else if hasOrphan m hash then true
  else hasTX m hash.

(** [Mempool.prototype.getSnapshot]. *)
Definition getSnapshot (m : Mempool) : list string := map fst (tx m).

(** [Mempool.prototype.isDoubleSpend]. *)
Fixpoint isDoubleSpendLoop (m : Mempool) (ins : list Input) : bool :=
  match ins with
  | [] => false
  | input :: rest =>
      match isSpent m (op_hash (prevout input)) (op_index (prevout input)) with
      | Some _ => true
      | None => isDoubleSpendLoop m rest
      end
  end.

Definition isDoubleSpend (m : Mempool) (t : TX) : bool :=
  isDoubleSpendLoop m (inputs t).

(** The chain the mempool is attached to and the reading of the clock
    ([utils.now()]) during the call. *)
Variable chain : Chain.
Variable now : Z.

(** [a.indexOf(x)] followed by [a.splice(j, 1)] when [x] is found. *)
Fixpoint removeFirst (x : string) (l : list string) : list string :=
  match l with
  | [] => []
  | y :: l' => if String.eqb x y then l' else y :: removeFirst x l'
  end.

(** The keys of an object filled with [obj[k] = true] for each [k] of the
    list, as [Object.keys] gives them. *)
Fixpoint keysOf (seen l : list string) : list string :=
  match l with
  | [] => seen
  | k :: l' =>
      if bool_decide (k ∈ seen) then keysOf seen l' else keysOf (seen ++ [k]) l'
  end.

(** The items of an array with their indices. *)
Definition indexed {A} (l : list A) : list (nat * A) :=
  combine (seq 0 (length l)) l.

(** An error handed to a callback is dealt with by the callback; an
    exception is not. *)
Definition onError {A} (x : M A) (handler : Error -> M A) : M A :=
  fun m => match x m with
           | Throw (Exception message) m' => Throw (Exception message) m'
           | Throw e m' => handler e m'
           | r => r
           end.

(** [Mempool.prototype.removeOrphan] called with a transaction. *)
Definition removeOrphanTX (t : TX) : M unit :=
  let hash := tx_hash t in
  forEachSerial (getPrevout t) (fun prev =>
    modify (fun m =>
      match waiting m !! prev with
      | None => m
      | Some hashes =>
          let hashes := removeFirst hash hashes in
          if (length hashes =? 0)%nat then set_waiting (delete prev) m
          else set_waiting (insert prev hashes) m
      end)) ;;;
  modify (set_orphans (adel hash)) ;;;
  emit (EvRemoveOrphan hash) ;;;
  modify (set_totalOrphans (fun n => n - 1)).

(** [Mempool.prototype.removeOrphan] called with a hash. *)
Definition removeOrphan (hash : string) : M unit :=
  m <- get ;;
  match getOrphan m hash with
  | None => ret tt
  | Some t => removeOrphanTX t
  end.

(** [Mempool.prototype.limitOrphans]: [keys] is the local array
    [orphans = Object.keys(this.orphans)]. *)
Fixpoint limitOrphansLoop (fuel : nat) (keys : list string) : M unit :=
  fun m =>
    if totalOrphans m >? MAX_ORPHAN_TX then
      match fuel with
      | O => OutOfFuel
      | S fuel' =>
          let i := rand 0 (len keys) in
          (match keys !! i with
           | None => ret tt
           | Some hash => removeOrphan hash
           end ;;;
           limitOrphansLoop fuel' (delete i keys)) m
      end
    else Ret tt m.

Definition limitOrphans (fuel : nat) : M unit :=
  m <- get ;; limitOrphansLoop fuel (map fst (orphans m)).

(** [Mempool.prototype.storeOrphan]. *)
Definition storeOrphan (fuel : nat) (t : TX) : M unit :=
  if tx_getSize t >? 99999 then emit (EvBadOrphan (tx_hash t))
  else
    let hash := tx_hash t in
    let prevout :=
      keysOf []
        (map (fun input => op_hash (prevout input))
             (filter (fun input => in_coin input = None) (inputs t))) in
    assert (0 <? len prevout) "prevout.length > 0" ;;;
    forEachSerial prevout (fun prev =>
      modify (set_waiting (fun w =>
        <[prev := default [] (w !! prev) ++ [hash]]> w))) ;;;
    modify (set_orphans (aset hash t)) ;;;
    modify (set_totalOrphans (fun n => n + 1)) ;;;
    emit (EvAddOrphan hash) ;;;
    limitOrphans fuel.

(** [Mempool.prototype.resolveOrphans]. *)
Fixpoint resolveOrphansLoop (t : TX) (hashes : list string)
  (resolved : list TX) : M (list TX) :=
  match hashes with
  | [] => ret resolved
  | orphanHash :: rest =>
      m <- get ;;
      match getOrphan m orphanHash with
      | None => resolveOrphansLoop t rest resolved
      | Some orphan =>
          let orphan := fillCoinsFrom orphan t in
          if hasCoins orphan then
            modify (set_totalOrphans (fun n => n - 1)) ;;;
            modify (set_orphans (adel orphanHash)) ;;;
            resolveOrphansLoop t rest (resolved ++ [orphan])
          else
            modify (set_orphans (aset orphanHash orphan)) ;;;
            resolveOrphansLoop t rest resolved
      end
  end.

Definition resolveOrphans (t : TX) : M (list TX) :=
  let hash := tx_hash t in
  m <- get ;;
  match waiting m !! hash with
  | None => ret []
  | Some hashes =>
      resolved <- resolveOrphansLoop t hashes [] ;;
      modify (set_waiting (delete hash)) ;;;
      ret resolved
  end.

(** [ChainDB.prototype.fillCoins], through [chain.db.getCoin]. *)
Fixpoint db_fillCoinsLoop (ins : list Input) : M (list Input) :=
  match ins with
  | [] => ret []
  | input :: rest =>
      input <-
        match in_coin input with
        | Some _ => ret input
        | None =>
            coin <- lift (db_getCoin chain (op_hash (prevout input))
                            (op_index (prevout input))) ;;
            match coin with
            | Some c => ret (setCoin input (Some c))
            | None => ret input
            end
        end ;;
      rest <- db_fillCoinsLoop rest ;;
      ret (input :: rest)
  end.

Definition db_fillCoins (t : TX) : M TX :=
  if isCoinbase t then ret t
  else ins <- db_fillCoinsLoop (inputs t) ;; ret (setInputs t ins).

(** [Mempool.prototype.fillAllHistory]. *)
Definition fillAllHistory (t : TX) : M TX :=
  m <- get ;;
  let t := fillHistory m t in
  if hasCoins t then ret t else db_fillCoins t.

(** [Mempool.prototype.fillAllCoins]. *)
Fixpoint fillAllCoinsLoop (ins : list Input) : M (list Input) :=
  match ins with
  | [] => ret []
  | input :: rest =>
      m <- get ;;
      input <-
        match isSpent m (op_hash (prevout input))
                (op_index (prevout input)) with
        | Some _ => ret input
        | None =>
            coin <- lift (db_getCoin chain (op_hash (prevout input))
                            (op_index (prevout input))) ;;
            match coin with
            | Some c => ret (setCoin input (Some c))
            | None => ret input
            end
        end ;;
      rest <- fillAllCoinsLoop rest ;;
      ret (input :: rest)
  end.

Definition fillAllCoins (t : TX) : M TX :=
  m <- get ;;
  let t := fillCoins m t in
  if hasCoins t then ret t
  else ins <- fillAllCoinsLoop (inputs t) ;; ret (setInputs t ins).

(** [Mempool.prototype.getRange]. *)
Fixpoint getRangeLoop (items : list (Z * string))
  (entries : list MempoolEntry) : M (list MempoolEntry) :=
  match items with
  | [] => ret entries
  | (key, hash) :: rest =>
      m <- get ;;
      match getEntry m hash with
      | None => modify (set_time (tree_remove key)) ;;; getRangeLoop rest entries
      | Some entry => getRangeLoop rest (entries ++ [entry])
      end
  end.

Definition getRange (start end_ : Z) : M (list MempoolEntry) :=
  m <- get ;; getRangeLoop (tree_range start end_ (time m)) [].

(** [MempoolEntry.prototype.fromTX]: the loop that reads
    [tx.inputs[i].coin.height] throws on an input with no coin. *)
Fixpoint hasDependencies (ins : list Input) : Error + bool :=
  match ins with
  | [] => inr false
  | input :: rest =>
      match in_coin input with
      | None => inl (Exception "Cannot read property 'height' of undefined")
      | Some coin =>
          if coin_height coin =? -1 then inr true else hasDependencies rest
      end
  end.

Definition fromTX (t : TX) (height : Z) : Error + MempoolEntry :=
  let priority := getPriority t height in
  let value := getChainValue t height in
  let size := getVirtualSize t in
  let fee := getFee t in
  match hasDependencies (inputs t) with
  | inl e => inl e
  | inr dependencies =>
      inr {| e_tx := t; e_height := height; e_size := size;
             e_priority := priority; e_fee := fee; e_ts := now;
             e_chainValue := value; e_count := 1; e_sizes := size;
             e_fees := fee; e_dependencies := dependencies |}
  end.

(** [MempoolEntry.prototype.getPriority] and [isFree]. *)
Definition entryPriority (e : MempoolEntry) (height : Z) : Z :=
  let heightDelta := height - e_height e in
  let modSize := getModifiedSize (e_tx e) (e_size e) in
  let deltaPriority := (heightDelta * e_chainValue e) / modSize in
  let result := e_priority e + deltaPriority in
  if result <? 0 then 0 else result.

Definition isFree (e : MempoolEntry) (height : Z) : bool :=
  entryPriority e height >? FREE_THRESHOLD.

(** [Mempool.prototype._addUnchecked]. *)
Definition _addUnchecked (entry : MempoolEntry) : M unit :=
  let t := e_tx entry in
  let hash := tx_hash t in
  modify (set_tx (aset hash (setTX entry (stripCoins t)))) ;;;
  modify (set_time (tree_insert (e_ts entry) hash)) ;;;
  (if isCoinbase t then ret tt
   else
     forEachSerial (indexed (inputs t)) (fun '(i, input) =>
       let key := (op_hash (prevout input), op_index (prevout input)) in
       assert (bool_decide (is_Some (in_coin input))) "input.coin" ;;;
       let spender := {| op_hash := hash; op_index := i |} in
       modify (set_coins (delete key)) ;;;
       modify (set_spents (insert key spender)))) ;;;
  forEachSerial (indexed (outputs t)) (fun '(i, output) =>
    let key := (hash, i) in
    if isUnspendable (out_script output) then ret tt
    else modify (set_coins (insert key (coinFromTX t i)))).

(** [Mempool.prototype._removeSpenders]; [removeUnchecked] is the method it
    calls back into. *)
Definition _removeSpenders (removeUnchecked : MempoolEntry -> bool -> M unit)
  (entry : MempoolEntry) (limit : bool) : M unit :=
  let t := e_tx entry in
  if negb limit then ret tt
  else
    let hash := tx_hash t in
    forEachSerial (indexed (outputs t)) (fun '(i, output) =>
      m <- get ;;
      match isSpent m hash i with
      | None => ret tt
      | Some spender =>
          match getEntry m (op_hash spender) with
          | None => ret tt
          | Some entry => removeUnchecked entry limit
          end
      end).

(** [Mempool.prototype._removeUnchecked]. *)
Definition _removeUnchecked (removeUnchecked : MempoolEntry -> bool -> M unit)
  (entry : MempoolEntry) (limit : bool) : M unit :=
  let t := e_tx entry in
  let hash := tx_hash t in
  _removeSpenders removeUnchecked entry limit ;;;
  modify (set_tx (adel hash)) ;;;
  modify (set_time (tree_remove (e_ts entry))) ;;;
  (if isCoinbase t then ret tt
   else
     forEachSerial (inputs t) (fun input =>
       let key := (op_hash (prevout input), op_index (prevout input)) in
       modify (set_spents (delete key)) ;;;
       if negb limit then ret tt
       else
         assert (bool_decide (is_Some (in_coin input))) "input.coin" ;;;
         match in_coin input with
         | None => ret tt
         | Some coin =>
             if negb (coin_height coin =? -1) then ret tt
             else modify (set_coins (insert key coin))
         end)) ;;;
  forEachSerial (indexed (outputs t)) (fun '(i, output) =>
    let key := (hash, i) in
    if isUnspendable (out_script output) then ret tt
    else modify (set_coins (delete key))).

(** [Mempool.prototype.removeUnchecked]. *)
Fixpoint removeUnchecked (fuel : nat) (entry : MempoolEntry) (limit : bool)
  {struct fuel} : M unit :=
  match fuel with
  | O => fun _ => OutOfFuel
  | S fuel' =>
      let hash := tx_hash (e_tx entry) in
      t <- fillAllHistory (e_tx entry) ;;
      let entry := setTX entry t in
      removeOrphanTX t ;;;
      _removeUnchecked (removeUnchecked fuel') entry limit ;;;
      modify (set_spent (fun n => n - len (inputs t))) ;;;
      modify (fun m => set_size (fun n => n - memUsage m t) m) ;;;
      modify (set_total (fun n => n - 1)) ;;;
      (if limit then
         m <- get ;;
         let rate := getRate (e_sizes entry) (e_fees entry) in
         let rate := rate + minReasonableFee m in
         if rate >? minFeeRate m then
           modify (set_minFeeRate (fun _ => rate)) ;;;
           modify (set_blockSinceBump (fun _ => false))
         else ret tt
       else ret tt) ;;;
      emit (EvRemoveTx hash)
  end.

(** [x / Math.pow(2.0, k)] on an integer [x]. *)
Definition divPow2 (x k : Z) : Z :=
  if 0 <=? k then Z.quot x (2 ^ k) else x * 2 ^ (- k).

(** [Mempool.prototype.getMinRate]. *)
Definition getMinRate : M Z :=
  m <- get ;;
  if negb (blockSinceBump m) || (minFeeRate m =? 0) then ret (minFeeRate m)
  else if now >? lastFeeUpdate m + 10 then
    let halflife := FEE_HALFLIFE in
    let size := getSize m in
    let halflife :=
      if 4 * size <? maxSize (options m) then JS.ushr halflife 2
      else if 2 * size <? maxSize (options m) then JS.ushr halflife 1
      else halflife in
    let rate :=
      JS.or0 (divPow2 (minFeeRate m)
                (JS.or0 (Z.quot (now - lastFeeUpdate m) halflife))) in
    modify (set_minFeeRate (fun _ => rate)) ;;;
    modify (set_lastFeeUpdate (fun _ => now)) ;;;
    if 2 * rate <? minReasonableFee m then
      modify (set_minFeeRate (fun _ => 0)) ;;; ret 0
    else ret (Z.max rate (minReasonableFee m))
  else ret (Z.max (minFeeRate m) (minReasonableFee m)).

(** [Mempool.prototype.countAncestors]. *)
Fixpoint countAncestors (fuel : nat) (m : Mempool) (t : TX) : option Z :=
  match fuel with
  | O => None
  | S fuel' =>
      fold_left (fun max input =>
                   match max with
                   | None => None
                   | Some max =>
                       match getTX m (op_hash (prevout input)) with
                       | None => Some max
                       | Some prev =>
                           match countAncestors fuel' m prev with
                           | None => None
                           | Some count =>
                               let count := 1 + count in
                               Some (if count >? max then count else max)
                           end
                       end
                   end)
                (inputs t) (Some 0)
  end.

(** The end of [Mempool.prototype.verify]: [tx.verifyAsync(flags, ...)]
    with its callback, which tries again under the mandatory flags. *)
Definition verifyScripts (t : TX) (flags mandatory : Z) : M unit :=
  result <- lift (verifyAsync t flags) ;;
  if negb result then
    result <- lift (verifyAsync t mandatory) ;;
    if result then
      throw (VerifyError "nonstandard" "non-mandatory-script-verify-flag" 0)
    else
      throw (VerifyError "nonstandard" "mandatory-script-verify-flag" 0)
  else ret tt.

(** [Mempool.prototype.verify]. *)
Definition verify (fuel : nat) (entry : MempoolEntry) : M unit :=
  let height := chain_height chain + 1 in
  let lockFlags := STANDARD_LOCKTIME_FLAGS in
  let flags := STANDARD_VERIFY_FLAGS in
  let mandatory := MANDATORY_VERIFY_FLAGS in
  let t := e_tx entry in
  let mandatory :=
    if chainHasWitness chain then Z.lor mandatory VERIFY_WITNESS
    else mandatory in
  let flags :=
    if chainHasWitness chain then flags
    else Z.land flags (Z.lnot VERIFY_WITNESS) in
  result <- lift (checkLocks chain t lockFlags) ;;
  if negb result then
    throw (VerifyError "nonstandard" "non-BIP68-final" 0)
  else
  m <- get ;;
  if requireStandard (options m) && negb (hasStandardInputs t) then
    throw (VerifyError "nonstandard" "bad-txns-nonstandard-inputs" 0)
  else if getSigopsCost t flags >? MAX_SIGOPS_COST then
    throw (VerifyError "nonstandard" "bad-txns-too-many-sigops" 0)
  else
  let fee := getFee t in
  let modFee := e_fees entry in
  let size := e_size entry in
  minRate <- getMinRate ;;
  m <- get ;;
  let rejectFee := getMinFee t size minRate in
  let minRelayFee := getMinFee t size (minRelayFee m) in
  if (rejectFee >? 0) && (modFee <? rejectFee) then
    throw (VerifyError "insufficientfee" "mempool min fee not met" 0)
  else if relayPriority (options m) && (modFee <? minRelayFee)
          && negb (isFree entry height) then
    throw (VerifyError "insufficientfee" "insufficient priority" 0)
  else
  (if limitFree (options m) && (modFee <? minRelayFee) then
     modify (set_freeCount (fun c => freeDecay c (now - lastTime m))) ;;;
     modify (set_lastTime (fun _ => now)) ;;;
     m <- get ;;
     if freeAbove (freeCount m) (limitFreeRelay (options m) * 10 * 1000) then
       throw (VerifyError "insufficientfee" "rate limited free transaction" 0)
     else modify (set_freeCount (fun c => freeAdd c size))
   else ret tt) ;;;
  m <- get ;;
  if rejectAbsurdFees (options m) && (fee >? minRelayFee * 10000) then
    throw (VerifyError "highfee" "absurdly-high-fee" 0)
  else
  match countAncestors fuel m t with
  | None => fun _ => OutOfFuel
  | Some count =>
      if count >? ANCESTOR_LIMIT then
        throw (VerifyError "nonstandard" "too-long-mempool-chain" 0)
      else
      match checkInputs t height with
      | (false, (reason, score)) => throw (VerifyError "invalid" reason score)
      | (true, _) => verifyScripts t flags mandatory
      end
  end.

(** [Mempool.prototype.addUnchecked]. *)
Fixpoint addUnchecked (fuel : nat) (entry : MempoolEntry) {struct fuel}
  : M unit :=
  match fuel with
  | O => fun _ => OutOfFuel
  | S fuel' =>
      _addUnchecked entry ;;;
      modify (set_spent (fun n => n + len (inputs (e_tx entry)))) ;;;
      modify (fun m => set_size (fun n => n + memUsage m (e_tx entry)) m) ;;;
      modify (set_total (fun n => n + 1)) ;;;
      emit (EvTx (tx_hash (e_tx entry))) ;;;
      emit (EvAddTx (tx_hash (e_tx entry))) ;;;
      resolved <- resolveOrphans (e_tx entry) ;;
      forEachSerial resolved (fun t =>
        entry <- raise (fromTX t (chain_height chain)) ;;
        verified <-
          onError (verify fuel' entry ;;; ret true) (fun err =>
            match err with
            | VerifyError _ _ _ =>
                emit (EvBadOrphan (tx_hash t)) ;;; ret false
            | _ => emit (EvError err) ;;; ret false
            end) ;;
        if verified then
          onError (addUnchecked fuel' entry)
            (fun err => emit (EvError err))
        else ret tt)
  end.

(** [Mempool.prototype.limitMempoolSize]: the first loop, over the entries
    [getRange] found.  The result tells whether the loop left through
    [return callback(null, trimmed)], and [trimmed]. *)
Fixpoint limitExpired (fuel : nat) (entryHash : string)
  (entries : list MempoolEntry) (trimmed : bool) : M (bool * bool) :=
  match entries with
  | [] => ret (false, trimmed)
  | entry :: rest =>
      m <- get ;;
      if getSize m <=? maxSize (options m) then ret (true, trimmed)
      else
        let trimmed :=
          if negb trimmed then String.eqb (tx_hash (e_tx entry)) entryHash
          else trimmed in
        removeUnchecked fuel entry true ;;;
        limitExpired fuel entryHash rest trimmed
  end.

(** The second loop, over the snapshot of the hashes. *)
Fixpoint limitSnapshot (fuel : nat) (entryHash : string)
  (hashes : list string) (trimmed : bool) : M bool :=
  match hashes with
  | [] => ret trimmed
  | hash :: rest =>
      m <- get ;;
      if getSize m <=? maxSize (options m) then ret trimmed
      else
        match getEntry m hash with
        | None => limitSnapshot fuel entryHash rest trimmed
        | Some entry =>
            let trimmed :=
              if negb trimmed then String.eqb hash entryHash else trimmed in
            removeUnchecked fuel entry true ;;;
            limitSnapshot fuel entryHash rest trimmed
        end
  end.

Definition limitMempoolSize (fuel : nat) (entryHash : string) : M bool :=
  let trimmed := false in
  m <- get ;;
  if getSize m <=? maxSize (options m) then ret trimmed
  else
    let end_ := now - MEMPOOL_EXPIRY in
    entries <- getRange 0 end_ ;;
    r <- limitExpired fuel entryHash entries trimmed ;;
    match r with
    | (true, trimmed) => ret trimmed
    | (false, trimmed) =>
        m <- get ;;
        if getSize m <=? maxSize (options m) then ret trimmed
        else limitSnapshot fuel entryHash (getSnapshot m) trimmed
    end.

(** [Mempool.prototype.addTX].  The result [tt] is the call of the callback
    with no error. *)
Definition addTX (fuel : nat) (t : TX) : M unit :=
  let lockFlags := STANDARD_LOCKTIME_FLAGS in
  let hash := tx_hash t in
  m <- get ;;
  if negb (tx_ts t =? 0) then
    throw (VerifyError "alreadyknown" "txn-already-known" 0)
  else
  match isSane t with
  | (false, (reason, score)) => throw (VerifyError "invalid" reason score)
  | (true, _) =>
  if isCoinbase t then throw (VerifyError "invalid" "coinbase" 100)
  else if requireStandard (options m) && negb (hasCSV chain)
          && (tx_version t >=? 2) then
    throw (VerifyError "nonstandard" "premature-version2-tx" 0)
  else if negb (chainHasWitness chain) && negb (prematureWitness (options m))
          && hasWitness t then
    throw (VerifyError "nonstandard" "no-witness-yet" 0)
  else
  match (if requireStandard (options m) then isStandard t
         else (true, (""%string, 0))) with
  | (false, (reason, score)) => throw (VerifyError "nonstandard" reason score)
  | (true, _) =>
  isFinal <- lift (checkFinal chain t lockFlags) ;;
  if negb isFinal then throw (VerifyError "nonstandard" "non-final" 0)
  else if has m hash then
    throw (VerifyError "alreadyknown" "txn-already-in-mempool" 0)
  else
  exists_ <- lift (db_hasCoins chain hash) ;;
  if exists_ then throw (VerifyError "alreadyknown" "txn-already-known" 0)
  else if isDoubleSpend m t then
    throw (VerifyError "duplicate" "bad-txns-inputs-spent" 0)
  else
  t <- fillAllCoins t ;;
  if negb (hasCoins t) then storeOrphan fuel t
  else
  entry <- raise (fromTX t (chain_height chain)) ;;
  verify fuel entry ;;;
  addUnchecked fuel entry ;;;
  trimmed <- limitMempoolSize fuel hash ;;
  if trimmed then throw (VerifyError "insufficientfee" "mempool full" 0)
  else ret tt
  end
  end.

(** [Mempool.prototype.addBlock]: the transactions of the block from the
    last to the first. *)
Definition addBlock (fuel : nat) (block : Block) : M unit :=
  forEachSerial (rev (txs block)) (fun t =>
    let hash := tx_hash t in
    if isCoinbase t then ret tt
    else
      m <- get ;;
      match getEntry m hash with
      | None => removeOrphan hash
      | Some entry =>
          removeUnchecked fuel entry false ;;;
          emit (EvConfirmed hash (block_hash block))
      end) ;;;
  modify (set_blockSinceBump (fun _ => true)) ;;;
  modify (set_lastFeeUpdate (fun _ => now)).

(** [Mempool.prototype.removeBlock]. *)
Definition removeBlock (fuel : nat) (block : Block) : M unit :=
  forEachSerial (txs block) (fun t =>
    let hash := tx_hash t in
    if isCoinbase t then ret tt
    else
      m <- get ;;
      if hasTX m hash then ret tt
      else
        entry <- raise (fromTX t (block_height block)) ;;
        addUnchecked fuel entry ;;;
        emit (EvUnconfirmed hash (block_hash block))).

End Methods.

(** *** A concrete instance for the runs below

    tx.js is not under src/: the methods take the plainest reading that
    fits their use (a fee is what the inputs bring minus what the outputs
    take, a transaction is sane when it has inputs and outputs, ...).  The
    tree is the list of its items in key order.  [standardOk] and
    [mandatoryOk] are the verdicts of the script interpreter under the
    standard and under the mandatory flags. *)
Definition NULL_HASH : string := "0000".

Fixpoint demoInsert (k : Z) (v : string) (t : list (Z * string))
  : list (Z * string) :=
  match t with
  | [] => [(k, v)]
  | (k', v') :: t' =>
      if k =? k' then (k', v) :: t'
      else if k <? k' then (k, v) :: (k', v') :: t'
      else (k', v') :: demoInsert k v t'
  end.

Definition demoCoinFromTX (t : @TX rawScripts) (i : nat) : @Coin rawScripts :=
  let o := default {| out_value := 0; out_script := [] : @Script rawScripts |}
             (outputs t !! i) in
  {| coin_version := tx_version t; coin_height := tx_height t;
     coin_value := out_value o; coin_script := out_script o;
     coin_coinbase := false; coin_hash := tx_hash t; coin_index := i |}.

Definition demoHasCoins (t : @TX rawScripts) : bool :=
  negb (length (inputs t) =? 0)%nat
  && forallb (fun i => bool_decide (is_Some (in_coin i))) (inputs t).

Definition demoSize (t : @TX rawScripts) : Z :=
  10 + sumZ (map (fun i => 41 + scriptGetSize (in_script i)) (inputs t))
     + sumZ (map (fun o => 9 + scriptGetSize (out_script o)) (outputs t)).

Definition demoFee (t : @TX rawScripts) : Z :=
  sumZ (map (fun i => from_option coin_value 0 (in_coin i)) (inputs t))
  - sumZ (map out_value (outputs t)).

Definition demoAPI (standardOk mandatoryOk : bool) : @TXAPI rawScripts := {|
  isSane := fun t =>
    (negb (length (inputs t) =? 0)%nat && negb (length (outputs t) =? 0)%nat,
     ("bad-txns-empty"%string, 100));
  isStandard := fun t => (true, (""%string, 0));
  checkInputs := fun t h => (true, (""%string, 0));
  isCoinbase := fun t =>
    match inputs t with
    | [i] => String.eqb (op_hash (prevout i)) NULL_HASH
    | _ => false
    end;
  hasWitness := fun t =>
    existsb (fun i => negb (length (in_witness i) =? 0)%nat) (inputs t);
  hasCoins := demoHasCoins;
  hasStandardInputs := fun t => true;
  getSigopsCost := fun t flags => 0;
  getFee := demoFee;
  getMinFee := fun t size rate => rate * size / 1000;
  tx_getSize := demoSize;
  getVirtualSize := demoSize;
  getModifiedSize := fun t size => size;
  getPriority := fun t h => 0;
  getChainValue := fun t h => 0;
  getPrevout := fun t => keysOf [] (map (fun i => op_hash (prevout i)) (inputs t));
  verifyAsync := fun t flags =>
    inr (if Z.testbit flags 2 then standardOk else mandatoryOk);
  fillCoinsFrom := fun orphan t =>
    setInputs orphan
      (map (fun i =>
              if String.eqb (op_hash (prevout i)) (tx_hash t)
              then setCoin i (Some (demoCoinFromTX t (op_index (prevout i))))
              else i)
           (inputs orphan));
  getRate := fun size fee => fee * 1000 / size;
  coinFromTX := demoCoinFromTX;
  rand := fun a b => 0%nat;
  STANDARD_LOCKTIME_FLAGS := 3;
  STANDARD_VERIFY_FLAGS := 2047;
  MANDATORY_VERIFY_FLAGS := 1;
  VERIFY_WITNESS := 2048;
  MAX_SIGOPS_COST := 80000;
  MEMPOOL_EXPIRY := 259200;
  FEE_HALFLIFE := 43200;
  ANCESTOR_LIMIT := 25;
  MAX_ORPHAN_TX := 100;
  FREE_THRESHOLD := 57600000;
  ptr64 := true;
  Float := Z;
  freeDecay := fun c dt => c;
  freeAbove := fun c limit => c >? limit;
  freeAdd := fun c size => c + size;
  Tree := list (Z * string);
  tree_insert := demoInsert;
  tree_remove := fun k t => filter (fun kv => fst kv <> k) t;
  tree_range := fun a b t => filter (fun kv => a <= fst kv <= b) t
|}.

(** A chain at height 100 that holds the coins [coins], all checks of
    which pass, with the deployments [csv] and [witness]. *)
Definition demoChain `{ScriptAPI} (csv witness : bool)
  (utxo : list (string * nat * Coin)) : Chain := {|
  chain_height := 100;
  hasCSV := csv;
  chainHasWitness := witness;
  checkFinal := fun t flags => inr true;
  checkLocks := fun t flags => inr true;
  db_hasCoins := fun h =>
    inr (existsb (fun c => String.eqb (fst (fst c)) h) utxo);
  db_getCoin := fun h i =>
    inr (match list_find (fun c => fst c = (h, i)) utxo with
         | Some (_, c) => Some (snd c)
         | None => None
         end)
|}.

Definition demoOptions (max : Z) (accurate : bool) : Options := {|
  limitFree := false;
  limitFreeRelay := 15;
  relayPriority := false;
  requireStandard := true;
  rejectAbsurdFees := true;
  prematureWitness := false;
  accurateMemory := accurate;
  maxSize := max
|}.

(** [new Mempool(options)]. *)
Definition newMempool `{TXAPI} (o : Options) (emptyTree : Tree)
  (zero : Float) : Mempool :=
  mk o [] ∅ ∅ [] ∅ 0 0 0 0 emptyTree zero 0 false 0 0 1000 1000 [] [].

(** *** Reasoning about the methods *)

Section Reasoning.

Context `{TXAPI}.

Lemma bind_Ret {A B} (x : M A) (k : A -> M B) m b m' :
  bind x k m = Ret b m' <-> exists a m1, x m = Ret a m1 /\ k a m1 = Ret b m'.
Proof.
  unfold bind. split.
  - destruct (x m) as [a m1| |]; [eauto|discriminate..].
  - intros (a & m1 & -> & Hk). exact Hk.
Qed.

Lemma bind_Throw {A B} (x : M A) (k : A -> M B) m e m' :
  bind x k m = Throw e m'
  <-> x m = Throw e m' \/ exists a m1, x m = Ret a m1 /\ k a m1 = Throw e m'.
Proof.
  unfold bind. split.
  - destruct (x m) as [a m1|e1 m1|]; [eauto|intros [= -> ->]; eauto|discriminate].
  - intros [->|(a & m1 & -> & Hk)]; [reflexivity|exact Hk].
Qed.

(** A method keeps a relation between the object before and after the call,
    whether it returns or fails. *)
Section Preserves.

Variable R : Mempool -> Mempool -> Prop.
Context {R_pre : PreOrder R}.

Definition preserves {A} (x : M A) : Prop :=
  forall m, match x m with
            | Ret _ m' => R m m'
            | Throw _ m' => R m m'
            | OutOfFuel => True
            end.

Lemma preserves_ret {A} (a : A) : preserves (ret a).
Proof. intros m. simpl. reflexivity. Qed.

Lemma preserves_throw {A} e : preserves (@throw _ _ A e).
Proof. intros m. simpl. reflexivity. Qed.

Lemma preserves_get : preserves get.
Proof. intros m. simpl. reflexivity. Qed.

Lemma preserves_lift {A} (r : string + A) : preserves (lift r).
Proof. destruct r; [apply preserves_throw|apply preserves_ret]. Qed.

Lemma preserves_raise {A} (r : Error + A) : preserves (raise r).
Proof. destruct r; [apply preserves_throw|apply preserves_ret]. Qed.

Lemma preserves_assert b s : preserves (assert b s).
Proof. destruct b; [apply preserves_ret|apply preserves_throw]. Qed.

Lemma preserves_modify f : (forall m, R m (f m)) -> preserves (modify f).
Proof. intros Hf m. simpl. apply Hf. Qed.

Lemma preserves_bind {A B} (x : M A) (k : A -> M B) :
  preserves x -> (forall a, preserves (k a)) -> preserves (bind x k).
Proof.
  intros Hx Hk m. unfold bind. specialize (Hx m).
  destruct (x m) as [a m1|e m1|]; [|exact Hx|exact I].
  specialize (Hk a m1). destruct (k a m1); try exact I; by etransitivity.
Qed.

Lemma preserves_forEachSerial {A} (l : list A) (f : A -> M unit) :
  (forall a, preserves (f a)) -> preserves (forEachSerial l f).
Proof.
  intros Hf. induction l as [|a l IH]; simpl.
  - apply preserves_ret.
  - apply preserves_bind; [apply Hf|intros _; exact IH].
Qed.

Lemma preserves_onError {A} (x : M A) (handler : Error -> M A) :
  preserves x -> (forall e, preserves (handler e)) -> preserves (onError x handler).
Proof.
  intros Hx Hh m. unfold onError. specialize (Hx m).
  destruct (x m) as [a m1|e m1|]; [exact Hx| |exact I].
  destruct e; try exact Hx.
  - specialize (Hh (VerifyError type reason score) m1).
    destruct (handler _ m1); try exact I; by etransitivity.
  - specialize (Hh (IOError message) m1).
    destruct (handler _ m1); try exact I; by etransitivity.
Qed.

Lemma preserves_fun {A} (f : Mempool -> M A) :
  (forall m0, preserves (f m0)) -> preserves (fun m => f m m).
Proof. intros Hf m. apply (Hf m m). Qed.

End Preserves.

End Reasoning.

(** One step through the body of a method. *)
Ltac preserves_step :=
  lazymatch goal with
  | |- preserves _ (ret _) => apply preserves_ret; exact _
  | |- preserves _ (throw _) => apply preserves_throw; exact _
  | |- preserves _ get => apply preserves_get; exact _
  | |- preserves _ (lift _) => apply preserves_lift; exact _
  | |- preserves _ (raise _) => apply preserves_raise; exact _
  | |- preserves _ (assert _ _) => apply preserves_assert; exact _
  | |- preserves _ (bind _ _) =>
      apply preserves_bind; try exact _; [|intros ?]
  | |- preserves _ (forEachSerial _ _) =>
      apply preserves_forEachSerial; try exact _; intros ?
  | |- preserves _ (onError _ _) =>
      apply preserves_onError; try exact _; [|intros ?]
  | |- preserves _ (match ?x with _ => _ end) => destruct x
  end.

Section Frames.

Context `{TXAPI}.

Variable chain : Chain.
Variable now : Z.

(** The events a call adds are among those that satisfy [P]. *)
Definition addsEvents (P : Event -> Prop) (m m' : Mempool) : Prop :=
  exists suffix, events m' = events m ++ suffix /\ Forall P suffix.

#[local] Instance addsEvents_pre P : PreOrder (addsEvents P).
Proof.
  split.
  - intros m. exists []. by rewrite app_nil_r.
  - intros a b c (s1 & H1 & F1) (s2 & H2 & F2). exists (s1 ++ s2).
    rewrite H2, H1, app_assoc. split; [done|by apply Forall_app].
Qed.

(** What the size accounting reads is left as it is. *)
Definition sameCounters (m m' : Mempool) : Prop :=
  options m' = options m /\ tx m' = tx m /\ size m' = size m /\
  total m' = total m /\ spent m' = spent m.

#[local] Instance sameCounters_pre : PreOrder sameCounters.
Proof.
  split.
  - intros m. by repeat split.
  - intros a b c (?&?&?&?&?) (?&?&?&?&?). repeat split; congruence.
Qed.

(** Only the fields of the fee limiter change. *)
Definition sameButFees (m m' : Mempool) : Prop :=
  sameCounters m m' /\ spents m' = spents m /\ coins m' = coins m /\
  orphans m' = orphans m /\ waiting m' = waiting m /\
  totalOrphans m' = totalOrphans m /\ time m' = time m /\
  events m' = events m /\ pending m' = pending m /\
  minReasonableFee m' = minReasonableFee m /\ minRelayFee m' = minRelayFee m.

#[local] Instance sameButFees_pre : PreOrder sameButFees.
Proof.
  split.
  - intros m. by repeat split.
  - intros a b c (?&?&?&?&?&?&?&?&?&?&?) (?&?&?&?&?&?&?&?&?&?&?).
    split; [by etransitivity|]. repeat split; congruence.
Qed.

Lemma emit_addsEvents (P : Event -> Prop) e :
  P e -> preserves (addsEvents P) (emit e).
Proof.
  intros He. apply preserves_modify; try exact _. intros m. exists [e].
  split; [done|]. by constructor.
Qed.

Lemma modify_addsEvents (P : Event -> Prop) f :
  (forall m, events (f m) = events m) -> preserves (addsEvents P) (modify f).
Proof.
  intros Hf. apply preserves_modify; try exact _. intros m. exists [].
  by rewrite app_nil_r, Hf.
Qed.

Lemma emit_sameCounters e : preserves sameCounters (emit e).
Proof. apply preserves_modify; try exact _. intros m. by repeat split. Qed.

(** [fillAllCoins], [fillAllHistory] and [chain.db.fillCoins] leave the
    mempool as it is. *)
Lemma db_fillCoinsLoop_eq ins : preserves eq (db_fillCoinsLoop chain ins).
Proof.
  induction ins as [|i ins IH]; simpl; repeat preserves_step; done.
Qed.

Lemma fillAllHistory_eq t : preserves eq (fillAllHistory chain t).
Proof.
  unfold fillAllHistory, db_fillCoins.
  repeat preserves_step; try done. apply db_fillCoinsLoop_eq.
Qed.

Lemma fillAllCoinsLoop_eq ins : preserves eq (fillAllCoinsLoop chain ins).
Proof.
  induction ins as [|i ins IH]; simpl; repeat preserves_step; done.
Qed.

Lemma fillAllCoins_eq t : preserves eq (fillAllCoins chain t).
Proof.
  unfold fillAllCoins.
  repeat preserves_step; try done. apply fillAllCoinsLoop_eq.
Qed.

(** Some input of [t] spends an outpoint that [spents] records. *)
Definition spendsSpent (m : Mempool) (t : TX) : Prop :=
  exists input,
    input ∈ inputs t /\
    is_Some (spents m !! (op_hash (prevout input), op_index (prevout input))).

(** The checks of [addTX] that come before the test against [spents] all
    let the transaction through. *)
Definition reachesSpentCheck (m : Mempool) (t : TX) : Prop :=
  tx_ts t = 0 /\
  fst (isSane t) = true /\
  isCoinbase t = false /\
  requireStandard (options m) && negb (hasCSV chain) && (tx_version t >=? 2)
  = false /\
  negb (chainHasWitness chain) && negb (prematureWitness (options m))
  && hasWitness t = false /\
  (requireStandard (options m) = true -> fst (isStandard t) = true) /\
  checkFinal chain t STANDARD_LOCKTIME_FLAGS = inr true /\
  has m (tx_hash t) = false /\
  db_hasCoins chain (tx_hash t) = inr false.

Lemma isDoubleSpend_spec m t : isDoubleSpend m t = true <-> spendsSpent m t.
Proof.
  unfold isDoubleSpend, spendsSpent, isSpent.
  induction (inputs t) as [|i ins IH]; simpl.
  - split; [discriminate|]. intros (x & Hx & _). by apply elem_of_nil in Hx.
  - unfold isSpent.
    destruct (spents m !! (op_hash (prevout i), op_index (prevout i)))
      as [sp|] eqn:Hsp.
    + split; [|done]. intros _. exists i. split; [by left|]. by rewrite Hsp.
    + rewrite IH. split.
      * intros (x & Hx & Hs). exists x. split; [by right|done].
      * intros (x & Hx & Hs). apply elem_of_cons in Hx as [->|Hx].
        -- rewrite Hsp in Hs. by destruct Hs.
        -- by exists x.
Qed.

(** C8, as amended.  When the scripts fail under the standard flags and
    fail again under the mandatory flags, [verify] hands its callback the
    error [VerifyError(tx, 'nonstandard', 'mandatory-script-verify-flag',
    0)]: the score is 0. *)
Theorem mandatory_script_failure_scores_zero (t : TX) (flags mandatory : Z)
  (m : Mempool) :
  verifyAsync t flags = inr false ->
  verifyAsync t mandatory = inr false ->
  verifyScripts t flags mandatory m
  = Throw (VerifyError "nonstandard" "mandatory-script-verify-flag" 0) m.
Proof.
  intros Hs Hm. unfold verifyScripts, bind. rewrite Hs. simpl.
  rewrite Hm. reflexivity.
Qed.

(** C2, as amended.  A transaction that gets as far as the test against
    [spents] and spends an outpoint recorded there is refused with the
    [VerifyError] 'duplicate', and the mempool is left as it was: what it
    held it still holds, and the new transaction is not in it. *)
Theorem addTX_double_spend_is_duplicate (fuel : nat) (t : TX) (m : Mempool) :
  reachesSpentCheck m t ->
  spendsSpent m t ->
  addTX chain now fuel t m
  = Throw (VerifyError "duplicate" "bad-txns-inputs-spent" 0) m /\
  has m (tx_hash t) = false.
Proof.
  intros (Hts & Hsane & Hcb & Hv2 & Hw & Hstd & Hfinal & Hhas & Hcoins) Hsp.
  apply isDoubleSpend_spec in Hsp. split; [|exact Hhas].
  unfold addTX, bind, get. simpl.
  rewrite Hts. simpl.
  destruct (isSane t) as [sane [r sc]]. simpl in Hsane. subst sane.
  rewrite Hcb, Hv2, Hw.
  destruct (requireStandard (options m)) eqn:Hreq.
  - destruct (isStandard t) as [std [r' sc']]. simpl in Hstd.
    rewrite Hstd by reflexivity. rewrite Hfinal. simpl.
    rewrite Hhas, Hcoins. simpl. rewrite Hsp. reflexivity.
  - rewrite Hfinal. simpl. rewrite Hhas, Hcoins. simpl. rewrite Hsp.
    reflexivity.
Qed.

(** C6, as amended.  A transaction that collides with a spender already in
    the mempool never replaces it, whatever the receive times: [addTX]
    fails and leaves the mempool as it was, so the older spender is still
    there, the newer one is not added and no event is emitted. *)
Theorem addTX_collision_keeps_older (fuel : nat) (t : TX) (m : Mempool) :
  spendsSpent m t ->
  exists e, addTX chain now fuel t m = Throw e m.
Proof.
  intros Hsp. apply isDoubleSpend_spec in Hsp.
  unfold addTX, bind, get. simpl.
  destruct (tx_ts t =? 0); simpl; [|eauto].
  destruct (isSane t) as [[] [r sc]]; [|eauto].
  destruct (isCoinbase t); [eauto|].
  destruct (requireStandard (options m) && negb (hasCSV chain)
            && (tx_version t >=? 2)); [eauto|].
  destruct (negb (chainHasWitness chain) && negb (prematureWitness (options m))
            && hasWitness t); [eauto|].
  destruct (if requireStandard (options m) then isStandard t
            else (true, (""%string, 0))) as [[] [r' sc']]; [|eauto].
  destruct (checkFinal chain t STANDARD_LOCKTIME_FLAGS) as [err|[]];
    simpl; [eauto| |eauto].
  destruct (has m (tx_hash t)); [eauto|].
  destruct (db_hasCoins chain (tx_hash t)) as [err|[]]; simpl; [eauto..|].
  rewrite Hsp. eauto.
Qed.

End Frames.

(** *** What holds when a method returns *)

Section Triples.

Context `{TXAPI}.

(** From a mempool that satisfies [Pre], the method returns [a] in a mempool
    that satisfies [Q a], or fails with [e] in one that satisfies [E e]. *)
Definition triple {A} (Pre : Mempool -> Prop) (x : M A)
  (Q : A -> Mempool -> Prop) (E : Error -> Mempool -> Prop) : Prop :=
  forall m, Pre m ->
    match x m with
    | Ret a m' => Q a m'
    | Throw e m' => E e m'
    | OutOfFuel => True
    end.

Lemma triple_conseq {A} (Pre Pre' : Mempool -> Prop) (x : M A)
  (Q Q' : A -> Mempool -> Prop) (E E' : Error -> Mempool -> Prop) :
  triple Pre' x Q' E' ->
  (forall m, Pre m -> Pre' m) ->
  (forall a m, Q' a m -> Q a m) ->
  (forall e m, E' e m -> E e m) ->
  triple Pre x Q E.
Proof.
  intros Hx HP HQ HE m Hm. specialize (Hx m (HP m Hm)).
  destruct (x m); auto.
Qed.

Lemma triple_ret {A} (Pre : Mempool -> Prop) (a : A) Q E :
  (forall m, Pre m -> Q a m) -> triple Pre (ret a) Q E.
Proof. intros HQ m Hm. by apply HQ. Qed.

Lemma triple_throw {A} (Pre : Mempool -> Prop) e (Q : A -> Mempool -> Prop) E :
  (forall m, Pre m -> E e m) -> triple Pre (throw e) Q E.
Proof. intros HE m Hm. by apply HE. Qed.

Lemma triple_modify (Pre : Mempool -> Prop) f Q E :
  (forall m, Pre m -> Q tt (f m)) -> triple Pre (modify f) Q E.
Proof. intros HQ m Hm. by apply HQ. Qed.

Lemma triple_bind {A B} (Pre : Mempool -> Prop) (x : M A) (k : A -> M B)
  (Mid : A -> Mempool -> Prop) Q E :
  triple Pre x Mid E -> (forall a, triple (Mid a) (k a) Q E) ->
  triple Pre (bind x k) Q E.
Proof.
  intros Hx Hk m Hm. unfold bind. specialize (Hx m Hm).
  destruct (x m) as [a m1|e m1|]; [|exact Hx|exact I].
  apply (Hk a m1 Hx).
Qed.

(** Reading the object: what follows may use what is read. *)
Lemma triple_get {A} (Pre : Mempool -> Prop) (k : Mempool -> M A) Q E :
  (forall m0, Pre m0 -> triple (eq m0) (k m0) Q E) ->
  triple Pre (bind get k) Q E.
Proof. intros Hk m Hm. exact (Hk m Hm m eq_refl). Qed.

Lemma triple_forEachSerial {A} (Inv : Mempool -> Prop) (l : list A)
  (f : A -> M unit) E :
  (forall a, triple Inv (f a) (fun _ => Inv) E) ->
  triple Inv (forEachSerial l f) (fun _ => Inv) E.
Proof.
  intros Hf. induction l as [|a l IH]; simpl.
  - by apply triple_ret.
  - eapply triple_bind; [apply Hf|intros ?; exact IH].
Qed.

(** A method that keeps [R] keeps every property that [R] carries along. *)
Lemma triple_frame {A} (R : Mempool -> Mempool -> Prop) (Pre : Mempool -> Prop)
  (x : M A) :
  preserves R x -> (forall m m', Pre m -> R m m' -> Pre m') ->
  triple Pre x (fun _ => Pre) (fun _ => Pre).
Proof.
  intros Hx HR m Hm. specialize (Hx m). destruct (x m); eauto.
Qed.

Lemma triple_and {A} (Pre : Mempool -> Prop) (x : M A) Q1 Q2 E1 E2 :
  triple Pre x Q1 E1 -> triple Pre x Q2 E2 ->
  triple Pre x (fun a m => Q1 a m /\ Q2 a m) (fun e m => E1 e m /\ E2 e m).
Proof.
  intros H1 H2 m Hm. specialize (H1 m Hm). specialize (H2 m Hm).
  destruct (x m); auto.
Qed.

End Triples.

(** *** What a method changes

    A relation between the mempool before and after a call, given by what
    it allows on the table of entries, on the list of events and on the
    counters [size], [total] and [spent]; the options never change. *)

Definition counters `{TXAPI} (m : Mempool) : Z * Z * Z :=
  (size m, total m, spent m).

Definition changes `{TXAPI} (RT : relation (list (string * MempoolEntry)))
  (RE : relation (list Event)) (RC : relation (Z * Z * Z))
  (m m' : Mempool) : Prop :=
  options m' = options m /\ RT (tx m) (tx m') /\
  RE (events m) (events m') /\ RC (counters m) (counters m').

(** Any change at all. *)
Definition any {A} : relation A := fun _ _ => True.

#[global] Instance any_pre {A} : PreOrder (@any A).
Proof. by split. Qed.

(** The events of orphans, of removals and of errors. *)
Definition plain `{TXAPI} (e : Event) : Prop :=
  match e with
  | EvRemoveTx _ | EvBadOrphan _ | EvAddOrphan _ | EvRemoveOrphan _
  | EvError _ => True
  | _ => False
  end.

(** The goal of a step that assigns to fields of the object. *)
Ltac changes_goal :=
  intros ?; unfold changes, counters; simpl; repeat case_match; simpl;
  repeat match goal with |- _ /\ _ => split end.

(** The steps of a method one after the other; [leaf] closes what a step
    leaves when it is not the identity. *)
Ltac changes_with leaf :=
  repeat first
    [ preserves_step
    | apply preserves_modify; changes_goal; first [reflexivity|leaf] ].

Section Changes.

Context `{TXAPI}.

Variable chain : Chain.
Variable now : Z.

Lemma preserves_mono (R R' : Mempool -> Mempool -> Prop) {A} (x : M A) :
  (forall m m', R m m' -> R' m m') -> preserves R x -> preserves R' x.
Proof.
  intros HR Hx m. specialize (Hx m). destruct (x m); auto.
Qed.

Variable RT : relation (list (string * MempoolEntry)).
Variable RE : relation (list Event).
Variable RC : relation (Z * Z * Z).
Context {RT_pre : PreOrder RT} {RE_pre : PreOrder RE} {RC_pre : PreOrder RC}.

#[local] Instance changes_pre : PreOrder (changes RT RE RC).
Proof.
  split.
  - intros m. by repeat split.
  - intros a b c (?&?&?&?) (?&?&?&?).
    repeat split; [congruence|by etransitivity..].
Qed.

Hypothesis RE_plain : forall l e, plain e -> RE l (l ++ [e]).
Hypothesis RE_added : forall l h, RE l ((l ++ [EvTx h]) ++ [EvAddTx h]).
Hypothesis RT_removed : forall h l, RT l (adel h l).
Hypothesis RT_added :
  forall e l, RT l (aset (tx_hash (e_tx e)) (setTX e (stripCoins (e_tx e))) l).
Hypothesis RC_any : forall c c', RC c c'.

Local Abbreviation changes := (changes RT RE RC).

Ltac changes_leaf :=
  changes_goal;
  first [ reflexivity | apply RE_plain; exact I | apply RT_removed
        | apply RT_added | apply RC_any ].

Ltac changes_steps :=
  changes_with ltac:(first [ apply RE_plain; exact I | apply RT_removed
                           | apply RT_added | apply RC_any ]).

Lemma eq_changes {A} (x : M A) : preserves eq x -> preserves changes x.
Proof. apply preserves_mono. intros m m' ->. reflexivity. Qed.

Lemma removeOrphanTX_changes t : preserves changes (removeOrphanTX t).
Proof. unfold removeOrphanTX. changes_steps. Qed.

Lemma removeOrphan_changes hash : preserves changes (removeOrphan hash).
Proof. unfold removeOrphan. changes_steps. apply removeOrphanTX_changes. Qed.

Lemma limitOrphansLoop_changes fuel keys :
  preserves changes (limitOrphansLoop fuel keys).
Proof.
  revert keys. induction fuel as [|fuel IH]; intros keys m; simpl.
  - destruct (totalOrphans m >? MAX_ORPHAN_TX); [exact I|reflexivity].
  - destruct (totalOrphans m >? MAX_ORPHAN_TX); [|reflexivity].
    assert (Hb : preserves changes
                   (match keys !! rand 0 (len keys) with
                    | Some hash => removeOrphan hash
                    | None => ret tt
                    end ;;; limitOrphansLoop fuel (delete (rand 0 (len keys)) keys))).
    { changes_steps; [apply removeOrphan_changes|apply IH]. }
    apply (Hb m).
Qed.

Lemma limitOrphans_changes fuel : preserves changes (limitOrphans fuel).
Proof. unfold limitOrphans. changes_steps. apply limitOrphansLoop_changes. Qed.

Lemma storeOrphan_changes fuel t : preserves changes (storeOrphan fuel t).
Proof. unfold storeOrphan. changes_steps. apply limitOrphans_changes. Qed.

Lemma resolveOrphansLoop_changes t hashes resolved :
  preserves changes (resolveOrphansLoop t hashes resolved).
Proof.
  revert resolved. induction hashes as [|h hashes IH]; intros resolved; simpl;
    changes_steps; apply IH.
Qed.

Lemma resolveOrphans_changes t : preserves changes (resolveOrphans t).
Proof. unfold resolveOrphans. changes_steps. apply resolveOrphansLoop_changes. Qed.

Lemma getRangeLoop_changes items entries :
  preserves changes (getRangeLoop items entries).
Proof.
  revert entries. induction items as [|[k h] items IH]; intros entries; simpl;
    changes_steps; apply IH.
Qed.

Lemma getRange_changes a b : preserves changes (getRange a b).
Proof. unfold getRange. changes_steps. apply getRangeLoop_changes. Qed.

Lemma getMinRate_changes : preserves changes (getMinRate now).
Proof. unfold getMinRate. changes_steps. Qed.

Lemma verify_changes fuel entry : preserves changes (verify chain now fuel entry).
Proof.
  unfold verify, verifyScripts. changes_steps; try apply getMinRate_changes.
  intros m. exact I.
Qed.

Lemma _addUnchecked_changes entry : preserves changes (_addUnchecked entry).
Proof. unfold _addUnchecked. changes_steps. Qed.

Lemma _removeSpenders_changes rec entry limit :
  (forall e l, preserves changes (rec e l)) ->
  preserves changes (_removeSpenders rec entry limit).
Proof. intros Hrec. unfold _removeSpenders. changes_steps. apply Hrec. Qed.

Lemma _removeUnchecked_changes rec entry limit :
  (forall e l, preserves changes (rec e l)) ->
  preserves changes (_removeUnchecked rec entry limit).
Proof.
  intros Hrec. unfold _removeUnchecked. changes_steps.
  by apply _removeSpenders_changes.
Qed.

Lemma removeUnchecked_changes fuel entry limit :
  preserves changes (removeUnchecked chain fuel entry limit).
Proof.
  revert entry limit. induction fuel as [|fuel IH]; intros entry limit.
  - intros m. exact I.
  - simpl. changes_steps.
    + apply eq_changes, fillAllHistory_eq.
    + apply removeOrphanTX_changes.
    + apply _removeUnchecked_changes. intros e l. apply IH.
Qed.

Lemma limitExpired_changes fuel hash entries trimmed :
  preserves changes (limitExpired chain fuel hash entries trimmed).
Proof.
  revert trimmed. induction entries as [|e entries IH]; intros trimmed; simpl;
    changes_steps; [apply removeUnchecked_changes|apply IH].
Qed.

Lemma limitSnapshot_changes fuel hash hashes trimmed :
  preserves changes (limitSnapshot chain fuel hash hashes trimmed).
Proof.
  revert trimmed. induction hashes as [|h hashes IH]; intros trimmed; simpl;
    changes_steps; try apply IH. apply removeUnchecked_changes.
Qed.

Lemma limitMempoolSize_changes fuel hash :
  preserves changes (limitMempoolSize chain now fuel hash).
Proof.
  unfold limitMempoolSize. changes_steps.
  - apply getRange_changes.
  - apply limitExpired_changes.
  - apply limitSnapshot_changes.
Qed.

(** The two events of an admission come together. *)
Lemma emit_emit_changes {A} a b (rest : M A) :
  (forall m, RE (events m) ((events m ++ [a]) ++ [b])) ->
  preserves changes rest ->
  preserves changes (emit a ;;; emit b ;;; rest).
Proof.
  intros Hab Hrest m. unfold bind, emit, modify.
  set (m2 := set_events _ (set_events _ m)).
  assert (H2 : changes m m2).
  { split; [reflexivity|]. split; [reflexivity|]. split; [apply Hab|reflexivity]. }
  specialize (Hrest m2). destruct (rest m2); try exact I; by etransitivity.
Qed.

Lemma addUnchecked_changes fuel entry :
  preserves changes (addUnchecked chain now fuel entry).
Proof.
  revert entry. induction fuel as [|fuel IH]; intros entry.
  - intros m. exact I.
  - simpl.
    apply preserves_bind; [exact _|apply _addUnchecked_changes|intros _].
    do 3 (apply preserves_bind;
          [exact _|apply preserves_modify; changes_leaf|intros _]).
    apply emit_emit_changes; [intros m; apply RE_added|].
    changes_steps.
    + apply resolveOrphans_changes.
    + apply verify_changes.
    + apply IH.
Qed.

Lemma addTX_changes fuel t : preserves changes (addTX chain now fuel t).
Proof.
  unfold addTX. changes_steps.
  - apply eq_changes, fillAllCoins_eq.
  - apply storeOrphan_changes.
  - apply verify_changes.
  - apply addUnchecked_changes.
  - apply limitMempoolSize_changes.
Qed.

End Changes.


(** *** The order of the events *)

Section Order.

Context `{TXAPI}.

Variable chain : Chain.
Variable now : Z.

#[local] Existing Instance changes_pre.

(** The state a call leaves the mempool in. *)
Definition stateOf {A} (r : Res A) : option Mempool :=
  match r with
  | Ret _ m => Some m
  | Throw _ m => Some m
  | OutOfFuel => None
  end.

Definition returns {A} (r : Res A) : bool :=
  match r with
  | OutOfFuel => false
  | _ => true
  end.

(** Every 'add tx' comes right after the 'tx' of the same transaction, and
    every 'confirmed' right after the 'remove tx' of the same
    transaction. *)
Definition ordered (l : list Event) : Prop :=
  forall j,
    (forall h, l !! j = Some (EvAddTx h) ->
       exists i, j = S i /\ l !! i = Some (EvTx h)) /\
    (forall h b, l !! j = Some (EvConfirmed h b) ->
       exists i, j = S i /\ l !! i = Some (EvRemoveTx h)).

(** The same, by the way the list is built. *)
Inductive paired : list Event -> Prop :=
| paired_nil : paired []
| paired_other l e :
    paired l -> (forall h, e <> EvAddTx h) ->
    (forall h b, e <> EvConfirmed h b) -> paired (l ++ [e])
| paired_added l h : paired l -> paired ((l ++ [EvTx h]) ++ [EvAddTx h])
| paired_confirmed l h b :
    paired l -> paired ((l ++ [EvRemoveTx h]) ++ [EvConfirmed h b]).

Lemma lookup_snoc_inv {A} (l : list A) (x y : A) j :
  (l ++ [x]) !! j = Some y ->
  l !! j = Some y \/ j = length l /\ y = x.
Proof.
  intros Hj. destruct (decide (j < length l)%nat) as [Hlt|Hge].
  - left. by rewrite lookup_app_l in Hj.
  - right. rewrite lookup_app_r in Hj by lia.
    destruct (j - length l)%nat as [|n] eqn:Hn; simpl in Hj; [|done].
    injection Hj as ->. split; [lia|done].
Qed.

Lemma ordered_other l e :
  ordered l -> (forall h, e <> EvAddTx h) ->
  (forall h b, e <> EvConfirmed h b) -> ordered (l ++ [e]).
Proof.
  intros Hl Ha Hc j. split.
  - intros h Hj. apply lookup_snoc_inv in Hj as [Hj|[_ He]].
    + destruct (proj1 (Hl j) h Hj) as (i & -> & Hi). exists i.
      split; [done|]. by apply lookup_app_l_Some.
    + by destruct (Ha h).
  - intros h b Hj. apply lookup_snoc_inv in Hj as [Hj|[_ He]].
    + destruct (proj2 (Hl j) h b Hj) as (i & -> & Hi). exists i.
      split; [done|]. by apply lookup_app_l_Some.
    + by destruct (Hc h b).
Qed.

Lemma ordered_after l a e :
  ordered (l ++ [a]) ->
  (forall h, e = EvAddTx h -> a = EvTx h) ->
  (forall h b, e = EvConfirmed h b -> a = EvRemoveTx h) ->
  ordered ((l ++ [a]) ++ [e]).
Proof.
  intros Hl Ha Hc j. split.
  - intros h Hj. apply lookup_snoc_inv in Hj as [Hj|[-> He]].
    + destruct (proj1 (Hl j) h Hj) as (i & -> & Hi). exists i.
      split; [done|]. by apply lookup_app_l_Some.
    + exists (length l). split; [rewrite length_app; simpl; lia|].
      apply lookup_app_l_Some. rewrite (Ha h (eq_sym He)).
      by rewrite lookup_app_r, Nat.sub_diag.
  - intros h b Hj. apply lookup_snoc_inv in Hj as [Hj|[-> He]].
    + destruct (proj2 (Hl j) h b Hj) as (i & -> & Hi). exists i.
      split; [done|]. by apply lookup_app_l_Some.
    + exists (length l). split; [rewrite length_app; simpl; lia|].
      apply lookup_app_l_Some. rewrite (Hc h b (eq_sym He)).
      by rewrite lookup_app_r, Nat.sub_diag.
Qed.

Lemma paired_ordered l : paired l -> ordered l.
Proof.
  induction 1 as [|l e _ IH Ha Hc|l h _ IH|l h b _ IH].
  - intros j. split; intros; by rewrite lookup_nil in *.
  - by apply ordered_other.
  - apply ordered_after.
    + apply ordered_other; [done|done..].
    + by intros h' [= ->].
    + done.
  - apply ordered_after.
    + apply ordered_other; [done|done..].
    + done.
    + by intros h' b' [= -> _].
Qed.

Lemma paired_app l1 l2 : paired l1 -> paired l2 -> paired (l1 ++ l2).
Proof.
  intros H1 H2. induction H2 as [|l e _ IH Ha Hc|l h _ IH|l h b _ IH].
  - by rewrite app_nil_r.
  - rewrite app_assoc. by apply paired_other.
  - rewrite !app_assoc. by apply paired_added.
  - rewrite !app_assoc. by apply paired_confirmed.
Qed.

(** The events a call adds are paired. *)
Definition addsPaired : relation (list Event) :=
  fun l l' => exists s, l' = l ++ s /\ paired s.

#[local] Instance addsPaired_pre : PreOrder addsPaired.
Proof.
  split.
  - intros l. exists []. split; [by rewrite app_nil_r|constructor].
  - intros a b c (s1 & -> & H1) (s2 & -> & H2). exists (s1 ++ s2).
    split; [by rewrite app_assoc|by apply paired_app].
Qed.

Lemma addsPaired_one l e :
  (forall h, e <> EvAddTx h) -> (forall h b, e <> EvConfirmed h b) ->
  addsPaired l (l ++ [e]).
Proof.
  intros Ha Hc. exists [e]. split; [done|].
  apply (paired_other [] e); [constructor|done..].
Qed.

Lemma addsPaired_plain l e : plain e -> addsPaired l (l ++ [e]).
Proof.
  intros He. apply addsPaired_one; [intros h ->|intros h b ->]; exact He.
Qed.

Lemma addsPaired_added l h : addsPaired l ((l ++ [EvTx h]) ++ [EvAddTx h]).
Proof.
  exists [EvTx h; EvAddTx h]. split; [by rewrite <- app_assoc|].
  apply (paired_added [] h). constructor.
Qed.

(** Every entry is stored under the hash of its transaction. *)
Definition keyed (l : list (string * MempoolEntry)) : Prop :=
  Forall (fun p => tx_hash (e_tx p.2) = p.1) l.

Definition keepsKeyed : relation (list (string * MempoolEntry)) :=
  fun l l' => keyed l -> keyed l'.

Definition keyedb (l : list (string * MempoolEntry)) : bool :=
  forallb (fun p => String.eqb (tx_hash (e_tx p.2)) p.1) l.

Lemma keyedb_keyed l : keyedb l = true -> keyed l.
Proof.
  unfold keyedb, keyed. rewrite forallb_forall, Forall_forall.
  intros Hl x Hx. apply String.eqb_eq, Hl. by apply list_elem_of_In.
Qed.

#[local] Instance keepsKeyed_pre : PreOrder keepsKeyed.
Proof.
  split.
  - intros l Hl. exact Hl.
  - intros a b c Hab Hbc Ha. exact (Hbc (Hab Ha)).
Qed.

Lemma alookup_elem_of {V} k (l : list (string * V)) v :
  alookup k l = Some v -> (k, v) ∈ l.
Proof.
  induction l as [|[k' v'] l IH]; simpl; [done|].
  destruct (String.eqb k k') eqn:Hk.
  - apply String.eqb_eq in Hk as ->. intros [= ->]. by left.
  - intros Hl. right. auto.
Qed.

Lemma adel_sublist {V} k (l : list (string * V)) : sublist (adel k l) l.
Proof.
  induction l as [|[k' v'] l IH]; simpl; [done|].
  destruct (String.eqb k k').
  - by apply sublist_cons.
  - by apply sublist_skip.
Qed.

Lemma elem_of_aset {V} k (v : V) l x :
  x ∈ aset k v l -> x = (k, v) \/ x ∈ l.
Proof.
  induction l as [|[k' v'] l IH]; simpl.
  - intros Hx. apply list_elem_of_singleton in Hx. by left.
  - destruct (String.eqb k k') eqn:Hk.
    + apply String.eqb_eq in Hk as ->. intros Hx.
      apply elem_of_cons in Hx as [->|Hx]; [by left|]. right. by right.
    + intros Hx. apply elem_of_cons in Hx as [->|Hx]; [right; by left|].
      destruct (IH Hx) as [->|Hl]; [by left|]. right. by right.
Qed.

Lemma keepsKeyed_removed h l : keepsKeyed l (adel h l).
Proof.
  unfold keepsKeyed, keyed. rewrite !Forall_forall. intros Hl x Hx.
  apply Hl. eapply elem_of_sublist; [exact Hx|apply adel_sublist].
Qed.

Lemma keepsKeyed_added e l :
  keepsKeyed l (aset (tx_hash (e_tx e)) (setTX e (stripCoins (e_tx e))) l).
Proof.
  unfold keepsKeyed, keyed. rewrite !Forall_forall. intros Hl x Hx.
  apply elem_of_aset in Hx as [->|Hx]; [reflexivity|by apply Hl].
Qed.

(** The events a call adds all satisfy [P]. *)
Definition addsOnly (P : Event -> Prop) : relation (list Event) :=
  fun l l' => exists s, l' = l ++ s /\ Forall P s.

#[local] Instance addsOnly_pre P : PreOrder (addsOnly P).
Proof.
  split.
  - intros l. exists []. by rewrite app_nil_r.
  - intros a b c (s1 & -> & H1) (s2 & -> & H2). exists (s1 ++ s2).
    split; [by rewrite app_assoc|by apply Forall_app].
Qed.

Lemma addsOnly_one (P : Event -> Prop) l e : P e -> addsOnly P l (l ++ [e]).
Proof. intros He. exists [e]. split; [done|by constructor]. Qed.

Lemma plain_paired s : Forall plain s -> paired s.
Proof.
  induction s as [|e s IH] using rev_ind; [constructor|].
  intros Hs. apply Forall_app in Hs as [Hs He].
  rewrite Forall_singleton in He.
  apply paired_other; [auto|intros h ->; exact He|intros h b ->; exact He].
Qed.

(** A method that returns has emitted [e] last, after events of orphans,
    removals and errors only. *)
Definition endsWith (e : Event) (y : M unit) : Prop :=
  forall m,
    match y m with
    | Ret _ m' => exists s, events m' = (events m ++ s) ++ [e] /\ Forall plain s
    | _ => True
    end.

Lemma endsWith_bind {A} (x : M A) (k : A -> M unit) e :
  preserves (changes any (addsOnly plain) any) x ->
  (forall a, endsWith e (k a)) -> endsWith e (bind x k).
Proof.
  intros Hx Hk m. unfold bind. specialize (Hx m).
  destruct (x m) as [a m1|e1 m1|]; [|exact I..].
  specialize (Hk a m1). destruct (k a m1) as [u m2|e2 m2|]; [|exact I..].
  destruct Hx as (_ & _ & (s1 & Hs1 & F1) & _).
  destruct Hk as (s2 & Hs2 & F2). exists (s1 ++ s2).
  split; [by rewrite Hs2, Hs1, app_assoc|by apply Forall_app].
Qed.

Lemma endsWith_emit e : endsWith e (emit e).
Proof. intros m. exists []. simpl. by rewrite app_nil_r. Qed.

Lemma removeUnchecked_ends fuel entry limit :
  endsWith (EvRemoveTx (tx_hash (e_tx entry)))
    (removeUnchecked chain fuel entry limit).
Proof.
  destruct fuel as [|fuel]; [intros m; exact I|]. simpl.
  apply endsWith_bind; [apply eq_changes, fillAllHistory_eq; exact _|intros t].
  apply endsWith_bind;
    [apply removeOrphanTX_changes; try exact _; apply addsOnly_one|intros _].
  apply endsWith_bind;
    [apply _removeUnchecked_changes; try exact _; try done;
     intros e l; apply removeUnchecked_changes; try exact _; try done;
     apply addsOnly_one|intros _].
  do 4 (apply endsWith_bind;
         [changes_with ltac:(exact I)|intros _]).
  apply endsWith_emit.
Qed.

(** From a mempool whose entries are stored under their hashes, a call
    keeps them so and adds paired events. *)
Definition ordering (m m' : Mempool) : Prop :=
  keyed (tx m) -> keyed (tx m') /\ addsPaired (events m) (events m').

#[local] Instance ordering_pre : PreOrder ordering.
Proof.
  split.
  - intros m Hm. split; [done|reflexivity].
  - intros a b c Hab Hbc Ha. destruct (Hab Ha) as [Hb Eab].
    destruct (Hbc Hb) as [Hc Ebc]. split; [done|by etransitivity].
Qed.

Lemma changes_ordering m m' :
  changes keepsKeyed addsPaired any m m' -> ordering m m'.
Proof. intros (_ & Hk & He & _) Hm. split; [by apply Hk|done]. Qed.

Lemma addTX_ordering fuel t : preserves ordering (addTX chain now fuel t).
Proof.
  eapply preserves_mono; [apply changes_ordering|].
  apply addTX_changes; try exact _; try done.
  - apply addsPaired_plain.
  - apply addsPaired_added.
  - apply keepsKeyed_removed.
  - apply keepsKeyed_added.
Qed.

Lemma removeBlock_ordering fuel block :
  preserves ordering (removeBlock chain now fuel block).
Proof.
  eapply preserves_mono; [apply changes_ordering|].
  unfold removeBlock.
  changes_with ltac:(apply addsPaired_one; intros; discriminate).
  apply addUnchecked_changes; try exact _; try done.
  - apply addsPaired_plain.
  - apply addsPaired_added.
  - apply keepsKeyed_added.
Qed.

Lemma addBlock_ordering fuel block :
  preserves ordering (addBlock chain now fuel block).
Proof.
  unfold addBlock. apply preserves_bind; [exact _| |intros _].
  - apply preserves_forEachSerial; [exact _|]. intros t.
    destruct (isCoinbase t); [apply preserves_ret; exact _|].
    intros m. unfold bind at 1, get.
    destruct (getEntry m (tx_hash t)) as [entry|] eqn:He.
    + unfold bind.
      pose proof (removeUnchecked_changes chain keepsKeyed addsPaired any
                    addsPaired_plain keepsKeyed_removed (fun _ _ => I)
                    fuel entry false m) as Hc.
      pose proof (removeUnchecked_ends fuel entry false m) as Hl.
      destruct (removeUnchecked chain fuel entry false m) as [u m1|e m1|];
        [|by apply changes_ordering|exact I].
      unfold emit, modify, set_events. simpl. intros Hm.
      destruct Hc as (_ & Hk & _ & _).
      split; [by apply Hk|]. destruct Hl as (s & -> & Fs).
      assert (Hh : tx_hash (e_tx entry) = tx_hash t).
      { apply alookup_elem_of in He. unfold keyed in Hm.
        rewrite Forall_forall in Hm. apply (Hm _ He). }
      rewrite Hh.
      exists ((s ++ [EvRemoveTx (tx_hash t)])
              ++ [EvConfirmed (tx_hash t) (block_hash block)]).
      split; [by rewrite !app_assoc|].
      apply paired_confirmed. by apply plain_paired.
    + apply (preserves_mono _ _ _ changes_ordering).
      apply removeOrphan_changes; try exact _. apply addsPaired_plain.
  - apply (preserves_mono _ _ _ changes_ordering).
    changes_with ltac:(exact I).
Qed.

(** In what [addTX], [addBlock] and [removeBlock] emit, every 'add tx'
    comes right after the 'tx' of the same transaction, and every
    'confirmed' right after the 'remove tx' of the same transaction. *)
Lemma events_ordered (fuel : nat) (m m' : Mempool) :
  keyed (tx m) ->
  (exists t, stateOf (addTX chain now fuel t m) = Some m') \/
  (exists block, stateOf (addBlock chain now fuel block m) = Some m') \/
  (exists block, stateOf (removeBlock chain now fuel block m) = Some m') ->
  exists s, events m' = events m ++ s /\ ordered s.
Proof.
  intros Hm Hrun.
  assert (Ho : ordering m m').
  { destruct Hrun as [[t Hr]|[[b Hr]|[b Hr]]].
    - pose proof (addTX_ordering fuel t m) as Hp.
      destruct (addTX chain now fuel t m); simpl in Hr; by simplify_eq.
    - pose proof (addBlock_ordering fuel b m) as Hp.
      destruct (addBlock chain now fuel b m); simpl in Hr; by simplify_eq.
    - pose proof (removeBlock_ordering fuel b m) as Hp.
      destruct (removeBlock chain now fuel b m); simpl in Hr; by simplify_eq. }
  destruct (Ho Hm) as (_ & s & Hs & Hp). exists s. split; [done|].
  by apply paired_ordered.
Qed.

End Order.

(** *** The errors a method fails with *)

Section Throws.

Context `{TXAPI}.

Variable chain : Chain.
Variable now : Z.



Variable P : Error -> Prop.
Hypothesis P_exception : forall s, P (Exception s).











End Throws.


Section ThrowsOf.

Context `{TXAPI}.

Variable chain : Chain.
Variable now : Z.

Variable P : Error -> Prop.
Hypothesis P_exception : forall s, P (Exception s).
Hypothesis P_io : forall s, P (IOError s).











End ThrowsOf.

(** *** The limit on the size *)

Section Sizes.

Context `{TXAPI}.

Variable chain : Chain.
Variable now : Z.

#[local] Existing Instance changes_pre.

(** The table has one entry per key, stored under the hash of its
    transaction. *)
Definition wellKeyed (l : list (string * MempoolEntry)) : Prop :=
  NoDup (map fst l) /\ keyed l.

Definition wellKeyedb (l : list (string * MempoolEntry)) : bool :=
  bool_decide (NoDup (map fst l)) && keyedb l.

Lemma wellKeyedb_wellKeyed l : wellKeyedb l = true -> wellKeyed l.
Proof.
  unfold wellKeyedb. intros [Hn Hk]%andb_true_iff. split.
  - by apply bool_decide_eq_true in Hn.
  - by apply keyedb_keyed.
Qed.

Definition keepsWellKeyed : relation (list (string * MempoolEntry)) :=
  fun l l' => wellKeyed l -> wellKeyed l'.

#[local] Instance keepsWellKeyed_pre : PreOrder keepsWellKeyed.
Proof.
  split.
  - intros l Hl. exact Hl.
  - intros a b c Hab Hbc Ha. exact (Hbc (Hab Ha)).
Qed.

(** Entries are taken away, none is added or replaced. *)
Definition shrinksTo : relation (list (string * MempoolEntry)) :=
  fun l l' => sublist l' l.

#[local] Instance shrinksTo_pre : PreOrder shrinksTo.
Proof.
  split.
  - intros l. unfold shrinksTo. reflexivity.
  - intros a b c Hab Hbc. unfold shrinksTo in *. by etransitivity.
Qed.

Lemma shrinksTo_removed h l : shrinksTo l (adel h l).
Proof. apply adel_sublist. Qed.

Lemma shrinksTo_wellKeyed l l' : shrinksTo l l' -> wellKeyed l -> wellKeyed l'.
Proof.
  intros Hs [Hn Hk]. split.
  - eapply sublist_NoDup; [exact Hn|apply fmap_sublist; exact Hs].
  - unfold keyed in *. rewrite Forall_forall in *. intros x Hx.
    apply Hk. eapply elem_of_sublist; [exact Hx|exact Hs].
Qed.

Lemma keepsWellKeyed_removed h l : keepsWellKeyed l (adel h l).
Proof. intros Hl. eapply shrinksTo_wellKeyed; [apply shrinksTo_removed|done]. Qed.





(** [fillAllHistory] gives the transaction back with its hash. *)
Lemma fillAllHistory_hash t m :
  match fillAllHistory chain t m with
  | Ret t' m' => tx_hash t' = tx_hash t /\ m' = m
  | _ => True
  end.
Proof.
  unfold fillAllHistory, bind, get.
  set (t1 := fillHistory m t).
  assert (Ht1 : tx_hash t1 = tx_hash t).
  { unfold t1, fillHistory. destruct (isCoinbase t); reflexivity. }
  destruct (hasCoins t1); [by split|].
  unfold db_fillCoins. destruct (isCoinbase t1); [by split|].
  unfold bind. pose proof (db_fillCoinsLoop_eq chain (inputs t1) m) as Hm.
  destruct (db_fillCoinsLoop chain (inputs t1) m); [|exact I..].
  split; [exact Ht1|by symmetry].
Qed.

Lemma triple_keep {A} (R : relation Mempool) (Pre Post : Mempool -> Prop)
  (x : M A) :
  preserves R x -> (forall m m', Pre m -> R m m' -> Post m') ->
  triple Pre x (fun _ => Post) (fun _ _ => True).
Proof.
  intros Hx HR m Hm. specialize (Hx m). destruct (x m); eauto.
Qed.

Definition keys (m : Mempool) : list string := map fst (tx m).

(** The relation of a call that only takes entries away. *)
Local Abbreviation removes := (changes shrinksTo any any).

(** The relation of a call that leaves the table and the counters. *)
Local Abbreviation keeps := (changes eq any eq).

(** The relation of a call that leaves the table. *)
Local Abbreviation sameTable := (changes eq any any).




Lemma bind_get {A} (k : Mempool -> M A) m : bind get k m = k m m.
Proof. reflexivity. Qed.



End Sizes.

(** *** The events of an admission and of a confirmation *)

Section Emission.

Context `{TXAPI}.

Variable chain : Chain.
Variable now : Z.

#[local] Existing Instance changes_pre.
#[local] Existing Instance addsOnly_pre.

(** Events are added, whatever they are. *)
Definition extends : relation (list Event) := addsOnly (fun _ => True).

Lemma extends_one l e : extends l (l ++ [e]).
Proof. by apply addsOnly_one. Qed.

(** The events since [l0] begin with [es]. *)
Definition beginsWith (l0 es : list Event) (m : Mempool) : Prop :=
  exists rest, events m = l0 ++ es ++ rest.

Lemma beginsWith_extends l0 es m m' :
  beginsWith l0 es m -> changes any extends any m m' -> beginsWith l0 es m'.
Proof.
  intros (rest & Hr) (_ & _ & (s & Hs & _) & _). exists (rest ++ s).
  by rewrite Hs, Hr, !app_assoc.
Qed.


Lemma triple_emit (l : list Event) e :
  triple (fun m => events m = l) (emit e)
    (fun _ m' => events m' = l ++ [e]) (fun _ _ => True).
Proof. intros m Hm. simpl. by rewrite Hm. Qed.

(** When [addUnchecked] returns, it has emitted 'tx' and then 'add tx' for
    the transaction, before anything else. *)
Lemma addUnchecked_emits fuel entry l0 :
  triple (fun m => events m = l0) (addUnchecked chain now fuel entry)
    (fun _ m' =>
       beginsWith l0 [EvTx (tx_hash (e_tx entry));
                      EvAddTx (tx_hash (e_tx entry))] m')
    (fun _ _ => True).
Proof.
  destruct fuel as [|fuel]; [intros m _; exact I|]. simpl.
  eapply triple_bind.
  { apply (triple_keep (changes any eq any) _ (fun m => events m = l0)).
    - apply _addUnchecked_changes; try exact _; done.
    - intros m m' Hm (_ & _ & He & _). by rewrite <- He. }
  intros ?.
  do 3 (eapply triple_bind;
        [apply (triple_keep (changes any eq any) _ (fun m => events m = l0));
         [changes_with ltac:(exact I)
         |intros m m' Hm (_ & _ & He & _); by rewrite <- He]
        |intros ?]).
  eapply triple_bind; [apply triple_emit|intros ?].
  eapply triple_bind; [apply triple_emit|intros ?].
  apply (triple_keep (changes any extends any)).
  - changes_with ltac:(first [exact I|apply extends_one]).
    + apply resolveOrphans_changes; exact _.
    + apply verify_changes; exact _.
    + apply addUnchecked_changes; try exact _; try done.
      * intros; apply extends_one.
      * intros l h. exists [EvTx h; EvAddTx h].
        split; [by rewrite <- app_assoc|by repeat constructor].
  - intros m m' Hm (_ & _ & (s & Hs & _) & _). exists s.
    by rewrite Hs, Hm, <- !app_assoc.
Qed.

Lemma fillAllCoins_hash t m :
  match fillAllCoins chain t m with
  | Ret t' m' => tx_hash t' = tx_hash t /\ m' = m
  | _ => True
  end.
Proof.
  unfold fillAllCoins, bind, get.
  set (t1 := fillCoins m t).
  assert (Ht1 : tx_hash t1 = tx_hash t).
  { unfold t1, fillCoins. destruct (isCoinbase t); reflexivity. }
  destruct (hasCoins t1); [by split|].
  pose proof (fillAllCoinsLoop_eq chain (inputs t1) m) as Hm.
  destruct (fillAllCoinsLoop chain (inputs t1) m); [|exact I..].
  split; [exact Ht1|by symmetry].
Qed.

Lemma fromTX_tx t height entry :
  fromTX now t height = inr entry -> e_tx entry = t.
Proof.
  unfold fromTX. destruct (hasDependencies (inputs t)); [done|].
  by intros [= <-].
Qed.

(** When [storeOrphan] returns, its first event is 'bad orphan' or
    'add orphan' for the transaction. *)
Lemma storeOrphan_emits fuel t l0 :
  triple (fun m => events m = l0) (storeOrphan fuel t)
    (fun _ m' =>
       beginsWith l0 [EvBadOrphan (tx_hash t)] m' \/
       beginsWith l0 [EvAddOrphan (tx_hash t)] m')
    (fun _ _ => True).
Proof.
  unfold storeOrphan. destruct (tx_getSize t >? 99999).
  - eapply triple_conseq; [apply (triple_emit l0)|done| |done].
    intros a m Hm. left. exists []. by rewrite Hm, app_nil_r.
  - do 4 (eapply triple_bind;
          [apply (triple_keep (changes any eq any) _ (fun m => events m = l0));
           [changes_with ltac:(exact I)
           |intros m m' Hm (_ & _ & He & _); by rewrite <- He]
          |intros ?]).
    eapply triple_bind; [apply triple_emit|intros ?].
    apply (triple_keep (changes any extends any)
             (fun m => events m = l0 ++ [EvAddOrphan (tx_hash t)])).
    + apply limitOrphans_changes; try exact _. intros; apply extends_one.
    + intros m m' Hm (_ & _ & (s & Hs & _) & _). right. exists s.
      by rewrite Hs, Hm, <- !app_assoc.
Qed.

(** When [addTX] returns, either the transaction has been admitted, and
    the first events of the call are its 'tx' and then its 'add tx', or it
    has been handled as an orphan. *)
Lemma addTX_emits fuel t m m' :
  addTX chain now fuel t m = Ret tt m' ->
  beginsWith (events m) [EvTx (tx_hash t); EvAddTx (tx_hash t)] m' \/
  beginsWith (events m) [EvBadOrphan (tx_hash t)] m' \/
  beginsWith (events m) [EvAddOrphan (tx_hash t)] m'.
Proof.
  unfold addTX, bind, get. simpl.
  destruct (tx_ts t =? 0); simpl; [|done].
  destruct (isSane t) as [[] [r sc]]; [|done].
  destruct (isCoinbase t); [done|].
  destruct (requireStandard (options m) && negb (hasCSV chain)
            && (tx_version t >=? 2)); [done|].
  destruct (negb (chainHasWitness chain) && negb (prematureWitness (options m))
            && hasWitness t); [done|].
  destruct (if requireStandard (options m) then isStandard t
            else (true, (""%string, 0))) as [[] [r' sc']]; [|done].
  destruct (checkFinal chain t STANDARD_LOCKTIME_FLAGS) as [err|[]];
    simpl; [done| |done].
  destruct (has m (tx_hash t)); [done|].
  destruct (db_hasCoins chain (tx_hash t)) as [err|[]]; simpl; [done..|].
  destruct (isDoubleSpend m t); [done|].
  pose proof (fillAllCoins_hash t m) as Hf.
  destruct (fillAllCoins chain t m) as [t1 m1|e m1|]; [|done..].
  destruct Hf as [Ht1 ->].
  destruct (hasCoins t1); simpl.
  2: { pose proof (storeOrphan_emits fuel t1 (events m) m eq_refl) as Ho.
       destruct (storeOrphan fuel t1 m) as [[] m2|e m2|]; [|done..].
       intros [= ->]. right. by rewrite <- Ht1. }
  destruct (fromTX now t1 (chain_height chain)) as [e|entry] eqn:Hentry;
    simpl; [done|].
  apply fromTX_tx in Hentry.
  pose proof (verify_changes chain now any eq any fuel entry m) as Hv.
  destruct (verify chain now fuel entry m) as [u m2|e m2|]; [|done..].
  destruct Hv as (_ & _ & Hev & _).
  pose proof (addUnchecked_emits fuel entry (events m) m2 (eq_sym Hev)) as Ha.
  destruct (addUnchecked chain now fuel entry m2) as [u3 m3|e m3|]; [|done..].
  pose proof (limitMempoolSize_changes chain now any extends any
                (fun l e _ => extends_one l e) (fun _ _ => I) (fun _ _ => I)
                fuel (tx_hash t) m3) as Hl.
  destruct (limitMempoolSize chain now fuel (tx_hash t) m3)
    as [trimmed m4|e m4|]; [|done..].
  destruct trimmed; simpl; [done|]. intros [= <-]. left.
  rewrite Hentry, Ht1 in Ha. eapply beginsWith_extends; [exact Ha|exact Hl].
Qed.

(** The events hold 'remove tx' of [h] and right after it 'confirmed' of
    [h] in block [b]. *)
Definition confirmedIn (h b : string) (s : list Event) : Prop :=
  exists i, s !! i = Some (EvRemoveTx h) /\ s !! (S i) = Some (EvConfirmed h b).

Lemma confirmedIn_app_l h b s s' : confirmedIn h b s -> confirmedIn h b (s ++ s').
Proof.
  intros (i & H1 & H2). exists i. split; by apply lookup_app_l_Some.
Qed.

Lemma confirmedIn_app_r h b s s' : confirmedIn h b s' -> confirmedIn h b (s ++ s').
Proof.
  intros (i & H1 & H2). exists (length s + i)%nat.
  split; [|replace (S (length s + i)) with (length s + S i)%nat by lia];
    by rewrite lookup_app_r, Nat.add_comm, Nat.add_sub by lia.
Qed.

Lemma alookup_adel_ne {V} k h (l : list (string * V)) :
  k <> h -> alookup k (adel h l) = alookup k l.
Proof.
  intros Hk. induction l as [|[k' v'] l IH]; simpl; [done|].
  destruct (String.eqb h k') eqn:Hh.
  - apply String.eqb_eq in Hh as <-.
    by rewrite (proj2 (String.eqb_neq k h) Hk).
  - simpl. by rewrite IH.
Qed.

(** [removeUnchecked] without the limit takes the entry of the hash out of
    the table, and nothing else. *)
Lemma removeUnchecked_table fuel entry l :
  triple (fun m => tx m = l) (removeUnchecked chain fuel entry false)
    (fun _ m' => tx m' = adel (tx_hash (e_tx entry)) l) (fun _ _ => True).
Proof.
  destruct fuel as [|fuel]; [intros m _; exact I|]. simpl.
  intros m Hm. unfold bind at 1.
  pose proof (fillAllHistory_hash chain (e_tx entry) m) as Ht.
  destruct (fillAllHistory chain (e_tx entry) m) as [t m0|e m0|];
    [|exact I..].
  destruct Ht as [Ht ->]. revert m Hm.
  change (triple (fun m => tx m = l)
            (removeOrphanTX t ;;;
             _removeUnchecked (removeUnchecked chain fuel) (setTX entry t) false ;;;
             modify (set_spent (fun n => n - len (inputs t))) ;;;
             modify (fun m => set_size (fun n => n - memUsage m t) m) ;;;
             modify (set_total (fun n => n - 1)) ;;;
             ret tt ;;;
             emit (EvRemoveTx (tx_hash (e_tx entry))))
            (fun _ m' => tx m' = adel (tx_hash (e_tx entry)) l)
            (fun _ _ => True)).
  eapply triple_bind.
  { apply (triple_keep (changes eq any any) _ (fun m => tx m = l)).
    - apply removeOrphanTX_changes; try exact _; done.
    - intros m m' Hm (_ & Ht' & _). by rewrite <- Ht'. }
  intros ?.
  apply (triple_bind _ _ _
           (fun _ m' => tx m' = adel (tx_hash (e_tx entry)) l)).
  { unfold _removeUnchecked, _removeSpenders. simpl.
    apply (triple_bind _ _ _ (fun _ m => tx m = l));
      [apply triple_ret; intros m Hm; exact Hm|intros ?].
    apply (triple_bind _ _ _
             (fun _ m' => tx m' = adel (tx_hash (e_tx entry)) l)).
    { apply triple_modify. intros m Hm. simpl. by rewrite Hm, Ht. }
    intros ?.
    apply (triple_keep (changes eq any any)).
    - changes_with ltac:(exact I).
    - intros m m' Hm (_ & Ht' & _). by rewrite <- Ht'. }
  intros ?.
  apply (triple_keep (changes eq any any)).
  - changes_with ltac:(exact I).
  - intros m m' Hm (_ & Ht' & _). by rewrite <- Ht'.
Qed.

(** The body of the loop of [addBlock]. *)
Definition confirmTX (fuel : nat) (block : Block) (t : TX) : M unit :=
  let hash := tx_hash t in
  if isCoinbase t then ret tt
  else
    m <- get ;;
    match getEntry m hash with
    | None => removeOrphan hash
    | Some entry =>
        removeUnchecked chain fuel entry false ;;;
        emit (EvConfirmed hash (block_hash block))
    end.

Lemma confirmTX_step fuel block t m m' :
  keyed (tx m) -> confirmTX fuel block t m = Ret tt m' ->
  keyed (tx m') /\
  exists s,
    events m' = events m ++ s /\
    (isCoinbase t = false -> hasTX m (tx_hash t) = true ->
     confirmedIn (tx_hash t) (block_hash block) s) /\
    (forall k, hasTX m k = true -> hasTX m' k = false ->
     isCoinbase t = false /\ hasTX m (tx_hash t) = true /\ k = tx_hash t).
Proof.
  intros Hk. unfold confirmTX. destruct (isCoinbase t) eqn:Hcb.
  { intros [= <-]. split; [done|]. exists [].
    split; [by rewrite app_nil_r|]. split; [done|]. congruence. }
  rewrite bind_get. unfold hasTX, getEntry.
  destruct (alookup (tx_hash t) (tx m)) as [entry|] eqn:He.
  - unfold bind.
    pose proof (removeUnchecked_ends chain fuel entry false m) as Hl.
    pose proof (removeUnchecked_table fuel entry (tx m) m eq_refl) as Ht.
    destruct (removeUnchecked chain fuel entry false m) as [[] m1|e m1|];
      [|done..].
    unfold emit, modify, set_events. simpl. intros [= <-]. simpl.
    assert (Hh : tx_hash (e_tx entry) = tx_hash t).
    { apply alookup_elem_of in He. unfold keyed in Hk.
      rewrite Forall_forall in Hk. apply (Hk _ He). }
    rewrite Hh in *. split.
    { rewrite Ht. by apply keepsKeyed_removed. }
    destruct Hl as (s & -> & Fs).
    exists ((s ++ [EvRemoveTx (tx_hash t)])
            ++ [EvConfirmed (tx_hash t) (block_hash block)]).
    split; [by rewrite !app_assoc|]. split.
    + intros _ _. exists (length s). split.
      * apply lookup_app_l_Some. by rewrite lookup_app_r, Nat.sub_diag.
      * rewrite lookup_app_r by (rewrite length_app; simpl; lia).
        rewrite length_app. simpl.
        by replace (S (length s) - (length s + 1))%nat with 0%nat by lia.
    + intros k Hin Hout. split; [done|]. split; [done|].
      destruct (decide (k = tx_hash t)) as [->|Hne]; [done|].
      rewrite Ht, alookup_adel_ne in Hout by done. congruence.
  - pose proof (removeOrphan_changes eq extends any
                  (fun l e _ => extends_one l e) (tx_hash t) m) as Ho.
    destruct (removeOrphan (tx_hash t) m) as [[] m1|e m1|]; [|done..].
    intros [= <-]. destruct Ho as (_ & Ht & (s & Hs & _) & _).
    split; [by rewrite <- Ht|]. exists s. split; [done|]. split.
    + intros _ Hin. apply bool_decide_eq_true in Hin. by destruct Hin.
    + intros k Hin Hout. rewrite <- Ht in Hout. congruence.
Qed.

Lemma confirmTX_loop fuel block l m m' :
  keyed (tx m) ->
  forEachSerial l (confirmTX fuel block) m = Ret tt m' ->
  exists s,
    events m' = events m ++ s /\
    forall t, t ∈ l -> isCoinbase t = false -> hasTX m (tx_hash t) = true ->
      confirmedIn (tx_hash t) (block_hash block) s.
Proof.
  revert m. induction l as [|t l IH]; intros m Hk; simpl.
  - intros [= <-]. exists []. split; [by rewrite app_nil_r|].
    intros t Ht. by apply elem_of_nil in Ht.
  - unfold bind at 1.
    destruct (confirmTX fuel block t m) as [[] m1|e m1|] eqn:Hstep; [|done..].
    destruct (confirmTX_step _ _ _ _ _ Hk Hstep) as (Hk1 & s0 & Hs0 & Hthis & Hgone).
    intros Hrest. destruct (IH m1 Hk1 Hrest) as (s1 & Hs1 & Hlater).
    exists (s0 ++ s1). split; [by rewrite Hs1, Hs0, app_assoc|].
    intros t' Hin Hcb Hhas. apply elem_of_cons in Hin as [->|Hin].
    + apply confirmedIn_app_l. by apply Hthis.
    + destruct (hasTX m1 (tx_hash t')) eqn:H1.
      * apply confirmedIn_app_r. by apply Hlater.
      * destruct (Hgone _ Hhas H1) as (Hcbt & Hhast & ->).
        apply confirmedIn_app_l. by apply Hthis.
Qed.

(** When [addBlock] returns, it has emitted, for every transaction of the
    block that the mempool held, 'remove tx' and right after it
    'confirmed'. *)
Lemma addBlock_emits fuel block m m' :
  keyed (tx m) -> addBlock chain now fuel block m = Ret tt m' ->
  exists s,
    events m' = events m ++ s /\
    forall t, t ∈ txs block -> isCoinbase t = false ->
      hasTX m (tx_hash t) = true ->
      confirmedIn (tx_hash t) (block_hash block) s.
Proof.
  intros Hk. unfold addBlock.
  change (forEachSerial (rev (txs block)) _)
    with (forEachSerial (rev (txs block)) (confirmTX fuel block)).
  unfold bind at 1.
  destruct (forEachSerial (rev (txs block)) (confirmTX fuel block) m)
    as [[] m1|e m1|] eqn:Hloop; [|done..].
  simpl. intros [= <-]. simpl.
  destruct (confirmTX_loop _ _ _ _ _ Hk Hloop) as (s & Hs & Hall).
  exists s. split; [done|]. intros t Ht. apply Hall.
  apply list_elem_of_In. apply list_elem_of_In in Ht. by apply in_rev in Ht.
Qed.

(** C9, as amended.  An admission emits 'tx' and then 'add tx': when
    [addUnchecked] returns, the first two events of the call are the 'tx'
    and the 'add tx' of the transaction, in this order; when [addTX]
    returns, either it has admitted the transaction, with these two events
    first, or it has handled it as an orphan.  A confirmation emits
    'remove tx' and then 'confirmed': when [addBlock] returns, every
    transaction of the block that the mempool held has its 'remove tx'
    and, right after it, its 'confirmed'.  And in all that [addTX],
    [addBlock] and [removeBlock] emit, every 'add tx' comes right after
    the 'tx' of the same transaction and every 'confirmed' right after the
    'remove tx' of the same transaction. *)
Theorem tx_then_add_tx_and_remove_tx_then_confirmed (fuel : nat)
  (m m' : Mempool) :
  keyed (tx m) ->
  (forall entry,
     addUnchecked chain now fuel entry m = Ret tt m' ->
     exists rest,
       events m'
       = events m ++ [EvTx (tx_hash (e_tx entry));
                      EvAddTx (tx_hash (e_tx entry))] ++ rest) /\
  (forall t,
     addTX chain now fuel t m = Ret tt m' ->
     (exists rest,
        events m'
        = events m ++ [EvTx (tx_hash t); EvAddTx (tx_hash t)] ++ rest) \/
     (exists rest, events m' = events m ++ [EvBadOrphan (tx_hash t)] ++ rest) \/
     (exists rest, events m' = events m ++ [EvAddOrphan (tx_hash t)] ++ rest)) /\
  (forall block,
     addBlock chain now fuel block m = Ret tt m' ->
     exists s,
       events m' = events m ++ s /\
       forall t,
         t ∈ txs block -> isCoinbase t = false ->
         hasTX m (tx_hash t) = true ->
         exists i,
           s !! i = Some (EvRemoveTx (tx_hash t)) /\
           s !! (S i) = Some (EvConfirmed (tx_hash t) (block_hash block))) /\
  ((exists t, stateOf (addTX chain now fuel t m) = Some m') \/
   (exists block, stateOf (addBlock chain now fuel block m) = Some m') \/
   (exists block, stateOf (removeBlock chain now fuel block m) = Some m') ->
   exists s, events m' = events m ++ s /\ ordered s).
Proof.
  intros Hk. split; [|split; [|split]].
  - intros entry Hr.
    pose proof (addUnchecked_emits fuel entry (events m) m eq_refl) as He.
    by rewrite Hr in He.
  - intros t Hr. by apply (addTX_emits fuel).
  - intros block Hr. by apply (addBlock_emits fuel).
  - by apply events_ordered.
Qed.

End Emission.

(** *** The accounting of the size *)

Section Accounting.

Context `{TXAPI}.

Variable chain : Chain.
Variable now : Z.

#[local] Existing Instance changes_pre.
#[local] Existing Instance shrinksTo_pre.

(** [memUsage] under the options [o]. *)
Definition usageOf (o : Options) (t : TX) : Z :=
  if accurateMemory o then memUsageAccurate t else memUsageBitcoind t.

(** What the entries of the table account for, and how far [size] is
    above it. *)
Definition sumUsage (o : Options) (l : list (string * MempoolEntry)) : Z :=
  sumZ (map (fun p => usageOf o (e_tx p.2)) l).

Definition slack (m : Mempool) : Z := size m - sumUsage (options m) (tx m).

Definition okeys (m : Mempool) : list string := map fst (orphans m).

Definition okeyed (l : list (string * TX)) : Prop :=
  Forall (fun p => tx_hash p.2 = p.1) l.

(** The table and the orphans have one entry per key, stored under the hash
    of its transaction, and no orphan is in the table. *)
Definition consistent (m : Mempool) : Prop :=
  wellKeyed (tx m) /\ NoDup (okeys m) /\ okeyed (orphans m) /\
  (forall k, k ∈ okeys m -> k ∉ keys m).

Definition consistentb (m : Mempool) : bool :=
  wellKeyedb (tx m) && bool_decide (NoDup (okeys m))
  && forallb (fun p => String.eqb (tx_hash p.2) p.1) (orphans m)
  && forallb (fun k => negb (bool_decide (k ∈ keys m))) (okeys m).

Lemma consistentb_consistent m : consistentb m = true -> consistent m.
Proof.
  unfold consistentb, consistent.
  intros [[[Hw Hn]%andb_true_iff Hk]%andb_true_iff Hd]%andb_true_iff.
  split; [by apply wellKeyedb_wellKeyed|].
  split; [by apply bool_decide_eq_true in Hn|].
  split.
  { unfold okeyed. rewrite Forall_forall. rewrite forallb_forall in Hk.
    intros x Hx. apply String.eqb_eq, Hk. by apply list_elem_of_In. }
  rewrite forallb_forall in Hd. intros k Hk' Hin.
  apply list_elem_of_In, Hd, negb_true_iff, bool_decide_eq_false in Hk'. done.
Qed.

(** The size of the serialization of a transaction is not negative and
    does not depend on the coins its inputs carry; what an orphan becomes
    when coins are filled in has the hash of the orphan. *)
Hypothesis getSize_nonneg : forall t, 0 <= tx_getSize t.
Hypothesis getSize_coins :
  forall t t', stripCoins t = stripCoins t' -> tx_getSize t = tx_getSize t'.
Hypothesis fillCoinsFrom_hash :
  forall orphan t, tx_hash (fillCoinsFrom orphan t) = tx_hash orphan.

(** What the invariant reads is left as it is. *)
Definition untouched (m m' : Mempool) : Prop :=
  tx m' = tx m /\ size m' = size m /\ options m' = options m /\
  orphans m' = orphans m.

#[local] Instance untouched_pre : PreOrder untouched.
Proof.
  split.
  - intros m. by repeat split.
  - intros a b c (?&?&?&?) (?&?&?&?). repeat split; congruence.
Qed.






Section Accurate.

Variable o : Options.
Hypothesis o_accurate : accurateMemory o = true.















(** A call takes entries away and does not let [size] go further above
    what the entries account for. *)
Definition lowers (m m' : Mempool) : Prop :=
  options m' = options m /\ sublist (tx m') (tx m) /\ slack m' <= slack m.

#[local] Instance lowers_pre : PreOrder lowers.
Proof.
  split.
  - intros m. by repeat split.
  - intros a b c (Ho1 & Hs1 & Hl1) (Ho2 & Hs2 & Hl2).
    split; [congruence|]. split; [by etransitivity|lia].
Qed.







(** The first of the counters, [size], is left as it is. *)
Definition sizeSame : relation (Z * Z * Z) := fun c c' => c'.1.1 = c.1.1.

#[local] Instance sizeSame_pre : PreOrder sizeSame.
Proof. split; [by intros c|]. intros a b c. unfold sizeSame. congruence. Qed.


























End Accurate.

(** Orphans are only taken away. *)
Definition orphansShrink (m m' : Mempool) : Prop :=
  sublist (orphans m') (orphans m).

#[local] Instance orphansShrink_pre : PreOrder orphansShrink.
Proof.
  split.
  - intros m. unfold orphansShrink. reflexivity.
  - intros a b c Hab Hbc. unfold orphansShrink in *. by etransitivity.
Qed.





















End Accounting.

(** *** The limit after every call of [addTX] *)

Section Submissions.

Context `{TXAPI}.




End Submissions.

(** *** Concrete runs

    A chain that holds one coin, output 0 of a transaction [P], and three
    transactions: [A] and [B] both spend that coin, [B2] is [B] with version
    2. *)
Section Runs.

Definition mkInput (h : string) (i : nat) : @Input rawScripts :=
  {| prevout := {| op_hash := h; op_index := i |};
     in_script := [] : @Script rawScripts; in_witness := [];
     in_coin := None |}.

Definition mkOutput (v : Z) : @Output rawScripts :=
  {| out_value := v; out_script := [Byte.x51] : @Script rawScripts |}.

Definition mkTX (h : string) (v : Z) (ins : list (@Input rawScripts))
  (outs : list (@Output rawScripts)) : @TX rawScripts :=
  {| tx_hash := h; tx_version := v; tx_ts := 0; tx_height := -1;
     inputs := ins; outputs := outs |}.

Definition coinP : @Coin rawScripts :=
  {| coin_version := 1; coin_height := 50; coin_value := 100000;
     coin_script := [Byte.x51] : @Script rawScripts; coin_coinbase := false;
     coin_hash := "P"; coin_index := 0 |}.

Definition txA := mkTX "A" 1 [mkInput "P" 0] [mkOutput 90000].
Definition txB := mkTX "B" 1 [mkInput "P" 0] [mkOutput 80000].
Definition txB2 := mkTX "B" 2 [mkInput "P" 0] [mkOutput 80000].

Definition theChain : @Chain rawScripts :=
  demoChain false false [("P"%string, 0%nat, coinP)].

Definition emptyPool (api : @TXAPI rawScripts) (max : Z) (accurate : bool)
  (empty : @Tree _ api) (zero : @Float _ api) : @Mempool _ api :=
  @newMempool _ api (demoOptions max accurate) empty zero.

(** The state [r] leaves the mempool in. *)
Definition after {api : @TXAPI rawScripts} {A} (r : @Res _ api A)
  (otherwise : @Mempool _ api) : @Mempool _ api :=
  match r with
  | Ret _ m => m
  | Throw _ m => m
  | OutOfFuel => otherwise
  end.

(** The error [r] ends with, if any. *)
Definition errorOf {api : @TXAPI rawScripts} {A} (r : @Res _ api A)
  : option Error :=
  match r with
  | Throw e _ => Some e
  | _ => None
  end.

Lemma errorOf_Some {api : @TXAPI rawScripts} {A} (r : @Res _ api A) e :
  errorOf r = Some e -> exists m, r = Throw e m.
Proof. destruct r; simpl; intros [=]. subst. eauto. Qed.

(** The mempool after [A] was submitted at time 1000. *)
Definition poolA : @Mempool _ (demoAPI true true) :=
  let api := demoAPI true true in
  let pool := emptyPool api 1000000 true [] 0 in
  after (@addTX _ api theChain 1000 5 txA pool) pool.

Example poolA_holds_A :
  @hasTX _ (demoAPI true true) poolA "A" = true /\
  @isSpent _ (demoAPI true true) poolA "P" 0
  = Some {| op_hash := "A"; op_index := 0 |}.
Proof. split; vm_compute; reflexivity. Qed.

Lemma mandatory_script_failure_scores_zero_witness :
  let api := demoAPI false false in
  let pool := emptyPool api 1000000 true [] 0 in
  @verifyAsync _ api txA 2047 = inr false /\
  @verifyAsync _ api txA 1 = inr false /\
  @verifyScripts _ api txA 2047 1 pool
  = Throw (VerifyError "nonstandard" "mandatory-script-verify-flag" 0) pool.
Proof.
  split; [reflexivity|]. split; [reflexivity|].
  apply (@mandatory_script_failure_scores_zero _ (demoAPI false false));
    reflexivity.
Defined.

(** C8 as stated fails: a transaction all of whose checks pass, except that
    its scripts fail under the standard and under the mandatory flags, is
    refused with a score of 0, not 100. *)
Lemma mandatory_script_failure_score_is_not_100 :
  let api := demoAPI false false in
  let pool := emptyPool api 1000000 true [] 0 in
  errorOf (@addTX _ api theChain 1000 5 txA pool)
  = Some (VerifyError "nonstandard" "mandatory-script-verify-flag" 0) /\
  ~ (forall type reason score m',
       @addTX _ api theChain 1000 5 txA pool
       = Throw (VerifyError type reason score) m' ->
       reason = "mandatory-script-verify-flag"%string -> score = 100).
Proof.
  assert (Hrun : errorOf (@addTX _ (demoAPI false false) theChain 1000 5 txA
                            (emptyPool (demoAPI false false) 1000000 true [] 0))
                 = Some (VerifyError "nonstandard"
                           "mandatory-script-verify-flag" 0))
    by (vm_compute; reflexivity).
  split; [exact Hrun|]. intros Hclaim.
  apply errorOf_Some in Hrun as [m' Hrun].
  specialize (Hclaim _ _ _ _ Hrun eq_refl). discriminate.
Qed.

Lemma addTX_double_spend_is_duplicate_witness :
  let api := demoAPI true true in
  @reachesSpentCheck _ api theChain poolA txB /\
  @spendsSpent _ api poolA txB /\
  @addTX _ api theChain 2000 5 txB poolA
  = Throw (VerifyError "duplicate" "bad-txns-inputs-spent" 0) poolA /\
  @has _ api poolA "B" = false.
Proof.
  assert (Hgate : @reachesSpentCheck _ (demoAPI true true)
                    theChain poolA txB).
  { repeat split; try reflexivity. }
  assert (Hsp : @spendsSpent _ (demoAPI true true) poolA txB).
  { exists (mkInput "P" 0). split; [by left|]. vm_compute. eauto. }
  split; [exact Hgate|]. split; [exact Hsp|].
  exact (@addTX_double_spend_is_duplicate _ (demoAPI true true)
           theChain 2000 5 txB poolA Hgate Hsp).
Defined.

(** C2 as stated fails: [B2] spends the outpoint [A] already spends, and it
    is refused before the test against [spents] is reached, as a version 2
    transaction that comes before CSV is active: the kind of the error is
    'nonstandard', not 'duplicate'. *)
Lemma double_spend_refused_as_nonstandard :
  let api := demoAPI true true in
  @spendsSpent _ api poolA txB2 /\
  errorOf (@addTX _ api theChain 2000 5 txB2 poolA)
  = Some (VerifyError "nonstandard" "premature-version2-tx" 0).
Proof.
  split.
  - exists (mkInput "P" 0). split; [by left|]. vm_compute. eauto.
  - vm_compute. reflexivity.
Qed.

Lemma addTX_collision_keeps_older_witness :
  let api := demoAPI true true in
  @spendsSpent _ api poolA txB /\
  exists e, @addTX _ api theChain 2000 5 txB poolA = Throw e poolA.
Proof.
  assert (Hsp : @spendsSpent _ (demoAPI true true) poolA txB).
  { exists (mkInput "P" 0). split; [by left|]. vm_compute. eauto. }
  split; [exact Hsp|].
  exact (@addTX_collision_keeps_older _ (demoAPI true true)
           theChain 2000 5 txB poolA Hsp).
Defined.

(** C6 as stated fails: [A] was received at time 1000 and is unconfirmed;
    [B], unconfirmed too, is received at time 2000 and spends the same
    outpoint.  [B] does not replace [A]: it is refused, [A] stays, and no
    event is emitted. *)
Lemma newer_spender_does_not_replace :
  let api := demoAPI true true in
  let r := @addTX _ api theChain 2000 5 txB poolA in
  e_ts <$> @getEntry _ api poolA "A" = Some 1000 /\
  errorOf r = Some (VerifyError "duplicate" "bad-txns-inputs-spent" 0) /\
  @hasTX _ api (after r poolA) "A" = true /\
  @hasTX _ api (after r poolA) "B" = false /\
  events (after r poolA) = events poolA.
Proof.
  intros api r.
  repeat match goal with |- _ /\ _ => split end; vm_compute; reflexivity.
Qed.

Definition blockA : @Block rawScripts :=
  {| block_hash := "blk"; block_height := 51; txs := [txA] |}.

Lemma stateOf_after {api : @TXAPI rawScripts} {A} (r : @Res _ api A) o :
  returns r = true -> stateOf r = Some (after r o).
Proof. by destruct r. Qed.



Definition returned {api : @TXAPI rawScripts} {A} (r : @Res _ api A) : bool :=
  match r with
  | Ret _ _ => true
  | _ => false
  end.

Lemma returned_after {api : @TXAPI rawScripts} (r : @Res _ api unit) o :
  returned r = true -> r = Ret tt (after r o).
Proof. by destruct r as [[] m|e m|]. Qed.

Lemma tx_then_add_tx_and_remove_tx_then_confirmed_witness :
  let api := demoAPI true true in
  let r := @addBlock _ api theChain 2000 5 blockA poolA in
  keyed (tx poolA) /\
  r = Ret tt (after r poolA) /\
  exists s,
    events (after r poolA) = events poolA ++ s /\
    exists i,
      s !! i = Some (EvRemoveTx "A") /\
      s !! (S i) = Some (EvConfirmed "A" "blk").
Proof.
  intros api r.
  assert (Hk : keyed (tx poolA)) by (apply keyedb_keyed; vm_compute; reflexivity).
  assert (Hr : r = Ret tt (after r poolA))
    by (apply returned_after; vm_compute; reflexivity).
  split; [exact Hk|]. split; [exact Hr|].
  destruct (@tx_then_add_tx_and_remove_tx_then_confirmed _ api theChain 2000 5
              poolA (after r poolA) Hk) as (_ & _ & Hb & _).
  destruct (Hb blockA Hr) as (s & Hs & Hall). exists s. split; [exact Hs|].
  apply (Hall txA); [by left|reflexivity|vm_compute; reflexivity].
Defined.

(** C9 as stated fails: the block [blockA] confirms [A], which the mempool
    holds.  [addBlock] emits 'remove tx' for [A] and then 'confirmed': no
    'remove tx' of [A] comes after its 'confirmed'. *)
Lemma remove_tx_is_emitted_before_confirmed :
  let api := demoAPI true true in
  let r := @addBlock _ api theChain 2000 5 blockA poolA in
  events (after r poolA)
  = [EvTx "A"; EvAddTx "A"; EvRemoveOrphan "A"; EvRemoveTx "A";
     EvConfirmed "A" "blk"] /\
  ~ (exists i j,
       (i < j)%nat /\
       events (after r poolA) !! i = Some (EvConfirmed "A" "blk") /\
       events (after r poolA) !! j = Some (EvRemoveTx "A")).
Proof.
  intros api r.
  assert (He : events (after r poolA)
               = [EvTx "A"; EvAddTx "A"; EvRemoveOrphan "A"; EvRemoveTx "A";
                  EvConfirmed "A" "blk"]) by (vm_compute; reflexivity).
  split; [exact He|]. rewrite He. intros (i & j & Hlt & Hi & Hj).
  do 5 (destruct i as [|i]; [try discriminate Hi|]); [|discriminate Hi].
  do 5 (destruct j as [|j]; [lia|]). discriminate Hj.
Qed.

Definition coinQ : @Coin rawScripts :=
  {| coin_version := 1; coin_height := 60; coin_value := 50000;
     coin_script := [Byte.x51] : @Script rawScripts; coin_coinbase := false;
     coin_hash := "Q"; coin_index := 0 |}.

Definition txC := mkTX "C" 1 [mkInput "Q" 0] [mkOutput 40000].


Definition chainPQ : @Chain rawScripts :=
  demoChain false false
    [("P"%string, 0%nat, coinP); ("Q"%string, 0%nat, coinQ)].


(** A mempool with room for one transaction, after [A] was submitted;
    then [C] is submitted, and [A] is evicted. *)
Definition smallPoolA : @Mempool _ (demoAPI true true) :=
  let api := demoAPI true true in
  let pool := emptyPool api 600 true [] 0 in
  after (@addTX _ api chainPQ 1000 5 txA pool) pool.

Example smallPoolA_evicts :
  let api := demoAPI true true in
  let r := @addTX _ api chainPQ 2000 5 txC smallPoolA in
  size smallPoolA = 502 /\ errorOf r = None /\
  size (after r smallPoolA) = 502 /\
  map fst (tx (after r smallPoolA)) = ["C"%string].
Proof.
  intros api r.
  repeat match goal with |- _ /\ _ => split end; vm_compute; reflexivity.
Qed.









End Runs.

End Mempool.
